(** * Auralis Commander: the interactive process session manager

    A shallow embedding of [dist/tools/interactive.js] (the compiled form of
    [src/tools/interactive.ts]) as an executable event-loop machine, and the
    properties of the session store, the line buffer and the five operations
    (start, write, read, kill, list) that the specification states.

    JavaScript runs every callback to completion on one thread, so one
    machine step is one callback: a tool request, a timer, the completion of
    a write to a pipe, a chunk of process output, a process exit. *)

From Stdlib Require Import ZArith Lia.
From Stdlib.Strings Require Import Ascii String.
From Stdlib.Strings Require Byte.
From Stdlib.Numbers Require DecimalString.
From stdpp Require Import gmap strings list.

Open Scope string_scope.
Open Scope list_scope.
Open Scope Z_scope.

(** ** JavaScript primitives used by the tool *)

Module Js.

(** The line feed, ['\n']. *)
Definition LF : ascii := "010"%char.

(** [s.split('\n')]: the pieces between line feeds; never empty. *)
Fixpoint split (s : string) : list string :=
  match s with
  | EmptyString => [EmptyString]
  | String c rest =>
      if Ascii.eqb c LF then EmptyString :: split rest
      else match split rest with
           | [] => [String c EmptyString]
           | w :: ws => String c w :: ws
           end
  end.

(** [lines.join('\n')]. *)
Definition join (lines : list string) : string :=
  String.concat (String LF EmptyString) lines.

(** [arr.slice(start)]: a negative [start] counts from the end, and both
    ends are clamped to the array. *)
Definition slice {A} (start : Z) (arr : list A) : list A :=
  let len := Z.of_nat (length arr) in
  let k := if start <? 0 then Z.max (len + start) 0 else Z.min start len in
  drop (Z.to_nat k) arr.

(** [!s] is false exactly for a present, non-empty string. *)
Definition truthy (s : option string) : bool :=
  match s with
  | Some EmptyString | None => false
  | Some (String _ _) => true
  end.

(** One hexadecimal digit, lower case as [Buffer.toString('hex')] prints. *)
Definition hexDigit (n : N) : ascii :=
  match N.to_nat n with
  | 0 => "0" | 1 => "1" | 2 => "2" | 3 => "3" | 4 => "4" | 5 => "5"
  | 6 => "6" | 7 => "7" | 8 => "8" | 9 => "9" | 10 => "a" | 11 => "b"
  | 12 => "c" | 13 => "d" | 14 => "e" | _ => "f"
  end%nat%char.

(** [buf.toString('hex')]: two digits per byte, high nibble first. *)
Fixpoint toHex (buf : list Byte.byte) : string :=
  match buf with
  | [] => EmptyString
  | b :: rest =>
      let n := Byte.to_N b in
      String (hexDigit (n / 16)) (String (hexDigit (n mod 16)) (toHex rest))
  end.

(** The value of a hexadecimal digit, and the byte two digits spell
    ([Buffer.from(s, 'hex')], one byte at a time). *)
Definition hexValue (c : ascii) : N :=
  let n := N_of_ascii c in
  if (48 <=? n)%N && (n <=? 57)%N then (n - 48)%N
  else if (97 <=? n)%N && (n <=? 102)%N then (n - 87)%N
  else 0%N.

Definition fromHexPair (hi lo : ascii) : option Byte.byte :=
  Byte.of_N (16 * hexValue hi + hexValue lo).

End Js.

(** ** Constants of the module *)

Definition MAX_SESSIONS : nat := 10.
Definition MAX_OUTPUT_LINES : Z := 1000.
Definition CLEANUP_INTERVAL_MS : Z := 5 * 60 * 1000.

(** ** The line buffer

    [addOutput] is the listener installed on both [stdout] and [stderr]; it
    works on [session.output]. *)

Definition addOutput (data : string) (output : list string) : list string :=
  let lines := Js.split data in
  let output := output ++ lines in
  if Z.of_nat (length output) >? MAX_OUTPUT_LINES
  then Js.slice (- MAX_OUTPUT_LINES) output
  else output.

(** ** Child processes

    The part of Node's [ChildProcess] handle that the tool reads and drives.
    [killed] becomes true when [kill()] has delivered a signal; it does not
    say that the process has ended. [exitCode] is [null] ([None]) until the
    process ends by itself, and a launch that failed leaves the (negative)
    error number there. [signalCode] is set when the process ends by a signal;
    the tool never reads it. [written] and [signals] record what the tool has
    handed to [stdin.write] and what [kill()] has delivered. A process can
    end by a signal that [kill()] delivered or by one sent from elsewhere
    (another program, the process itself); in both cases [exitCode] stays
    [null] and only [signalCode] is set. *)

Inductive Signal := SIGTERM | SIGKILL.

Record ChildProcess := {
  killed : bool;
  exitCode : option Z;
  signalCode : option Signal;
  written : list string;
  signals : list Signal;
}.

Definition isNull {A} (o : option A) : bool :=
  match o with None => true | Some _ => false end.

(** The process has ended (what the operating system knows). *)
Definition exited (p : ChildProcess) : bool :=
  negb (isNull (exitCode p)) || negb (isNull (signalCode p)).

(** [session.process.killed || session.process.exitCode !== null] *)
Definition isDead (p : ChildProcess) : bool :=
  killed p || negb (isNull (exitCode p)).

(** [session.process.exitCode === null && !session.process.killed] *)
Definition isRunning (p : ChildProcess) : bool :=
  isNull (exitCode p) && negb (killed p).

Inductive SpawnResult := Spawned | SpawnFailed (errno : Z) (msg : string).
Inductive KillResult := Delivered | NoSuchProcess | KillFailed (msg : string).

(** [spawn(executable, args, options)]. A failed launch is reported on the
    next tick, before any other callback: the handle gets the error number as
    exit code and emits ['error']. (An error that makes [spawn] throw rejects
    the promise before anything is scheduled or registered; such a call
    changes nothing.) *)
Definition spawn (res : SpawnResult) : ChildProcess :=
  {| killed := false;
     exitCode := match res with Spawned => None | SpawnFailed errno _ => Some errno end;
     signalCode := None; written := []; signals := [] |}.

(** [child.kill(sig)]: nothing is sent once the process has ended; otherwise
    the host says whether the signal was delivered. The second component is
    the message of the ['error'] event, when one is emitted. *)
Definition kill (sig : Signal) (res : KillResult) (p : ChildProcess)
  : ChildProcess * option string :=
  if exited p then (p, None)
  else match res with
       | Delivered =>
           ({| killed := true; exitCode := exitCode p; signalCode := signalCode p;
               written := written p; signals := signals p ++ [sig] |}, None)
       | NoSuchProcess => (p, None)
       | KillFailed msg => (p, Some msg)
       end.

(** [child.stdin.write(input, callback)] *)
Definition stdinWrite (input : string) (p : ChildProcess) : ChildProcess :=
  {| killed := killed p; exitCode := exitCode p; signalCode := signalCode p;
     written := written p ++ [input]; signals := signals p |}.

Definition setExitCode (code : Z) (p : ChildProcess) : ChildProcess :=
  {| killed := killed p; exitCode := Some code; signalCode := signalCode p;
     written := written p; signals := signals p |}.

Definition setSignalCode (sig : Signal) (p : ChildProcess) : ChildProcess :=
  {| killed := killed p; exitCode := exitCode p; signalCode := Some sig;
     written := written p; signals := signals p |}.

(** ** Results *)

Record SessionInfo := {
  info_session_id : string;
  info_command : string;
  info_started : Z;
  info_is_running : bool;
  info_output_lines : nat;
}.

(** A tool result: [createError]'s object, the payload of start, write, read
    and kill, or the listing. [details] holds the one key the tool ever puts
    there ([output] or [final_output]) with its value. *)
Inductive Response :=
| Error (code message : string) (details : option (string * string))
| Payload (session_id output : string) (is_running : bool)
| Sessions (sessions : list SessionInfo).

Definition createError (code message : string) (details : option (string * string))
  : Response := Error code message details.

Definition isError (r : Response) : bool :=
  match r with Error _ _ _ => true | _ => false end.

Definition codeOf (r : Response) : option string :=
  match r with Error code _ _ => Some code | _ => None end.

(** ** Sessions, pending callbacks and the state of the module *)

Record Session := {
  process : ChildProcess;
  output : list string;
  started : Z;
  command : string;
  cwd : string;
}.

(** A session object in the heap, with the promise of the [startProcess]
    call that made it: [call] numbers the request and [reply] is the value
    the promise was resolved with, if it was. *)
Record Child := {
  session : Session;
  call : nat;
  reply : option Response;
}.

(** The callbacks the module leaves pending. Each closure is listed with the
    variables it captured; [r] is the heap address of the [session] object
    (and of its [child]). *)
Inductive Task :=
| StartSettle (r : nat) (sessionId : string)
| WriteDone (k r : nat) (sessionId : string) (outputBefore : nat)
| WriteSettle (k r : nat) (sessionId : string) (outputBefore : nat)
| ReadPoll (k r : nat) (sessionId : string) (outputBefore : nat) (startTime timeoutMs : Z)
| KillEscalate (r : nat)
| Cleanup.

Record State := {
  sessions : gmap string nat;
  heap : list Child;
  tasks : list (option (Z * Task));
  replies : list (nat * Response);
  calls : nat;
  now : Z;
}.

(** What the host answers during one callback: the bytes of
    [randomBytes(4)], the fate of [spawn], of [kill] and of a write to the
    pipe, and the path helpers of [utils/paths], which are made of Node's
    [path] and [os] and of the process environment. *)
Record Host := {
  randomBytes4 : list Byte.byte;
  spawned : SpawnResult;
  delivered : KillResult;
  writeError : option string;
  normalizePath : string -> string;
  getHomeDir : string;
}.

Record ProcessInteractiveParams := {
  action : string;
  p_command : option string;
  p_cwd : option string;
  p_session_id : option string;
  p_input : option string;
  p_timeout_ms : option Z;
}.

Definition initial : State :=
  {| sessions := ∅; heap := []; tasks := [Some (CLEANUP_INTERVAL_MS, Cleanup)];
     replies := []; calls := 0; now := 0 |}.

(** *** Field updates *)

Definition withSessions (f : gmap string nat -> gmap string nat) (st : State) : State :=
  {| sessions := f (sessions st); heap := heap st; tasks := tasks st;
     replies := replies st; calls := calls st; now := now st |}.

Definition withHeap (f : list Child -> list Child) (st : State) : State :=
  {| sessions := sessions st; heap := f (heap st); tasks := tasks st;
     replies := replies st; calls := calls st; now := now st |}.

Definition withTasks (f : list (option (Z * Task)) -> list (option (Z * Task)))
    (st : State) : State :=
  {| sessions := sessions st; heap := heap st; tasks := f (tasks st);
     replies := replies st; calls := calls st; now := now st |}.

Definition withCalls (n : nat) (st : State) : State :=
  {| sessions := sessions st; heap := heap st; tasks := tasks st;
     replies := replies st; calls := n; now := now st |}.

Definition withNow (t : Z) (st : State) : State :=
  {| sessions := sessions st; heap := heap st; tasks := tasks st;
     replies := replies st; calls := calls st; now := t |}.

Definition withProcess (f : ChildProcess -> ChildProcess) (c : Child) : Child :=
  {| session := {| process := f (process (session c)); output := output (session c);
                   started := started (session c); command := command (session c);
                   cwd := cwd (session c) |};
     call := call c; reply := reply c |}.

Definition withOutput (f : list string -> list string) (c : Child) : Child :=
  {| session := {| process := process (session c); output := f (output (session c));
                   started := started (session c); command := command (session c);
                   cwd := cwd (session c) |};
     call := call c; reply := reply c |}.

Definition withReply (v : Response) (c : Child) : Child :=
  {| session := session c; call := call c; reply := Some v |}.

(** [setTimeout(callback, ms)], and a callback that waits for an input or
    output completion ([ms = 0]). *)
Definition setTimeout (t : Task) (ms : Z) (st : State) : State :=
  withTasks (fun ts => ts ++ [Some (now st + ms, t)]) st.

(** Resolving the promise of request [k]. *)
Definition resolve (k : nat) (v : Response) (st : State) : State :=
  {| sessions := sessions st; heap := heap st; tasks := tasks st;
     replies := replies st ++ [(k, v)]; calls := calls st; now := now st |}.

(** Resolving the promise of the start that made [r]: only the first call
    has an effect. Both the ['error'] listener and the settle timer hold this
    [resolve]. *)
Definition resolveStart (r : nat) (v : Response) (st : State) : State :=
  match heap st !! r with
  | Some c =>
      match reply c with
      | None => resolve (call c) v (withHeap (alter (withReply v) r) st)
      | Some _ => st
      end
  | None => st
  end.

(** ** The five operations *)

(** [generateSessionId]: [randomBytes(4).toString('hex')]. *)
Definition generateSessionId (host : Host) : string :=
  Js.toHex (randomBytes4 host).

(** [sessions.get(id)] followed by the access to the session object. *)
Definition getSession (sessionId : string) (st : State) : option (nat * Child) :=
  match sessions st !! sessionId with
  | Some r => match heap st !! r with Some c => Some (r, c) | None => None end
  | None => None
  end.

Definition notFound (sessionId : string) : Response :=
  createError "SESSION_NOT_FOUND" ("Session " +:+ sessionId +:+ " not found") None.

(** [child.kill(sig)] on the process of [r]; an ['error'] event runs the
    listener that [startProcess] installed. *)
Definition sendSignal (r : nat) (sig : Signal) (host : Host) (st : State) : State :=
  match heap st !! r with
  | Some c =>
      let '(p, err) := kill sig (delivered host) (process (session c)) in
      let st := withHeap (alter (withProcess (fun _ => p)) r) st in
      match err with
      | Some msg =>
          resolveStart r (createError "PROCESS_ERROR" ("Failed to start: " +:+ msg) None) st
      | None => st
      end
  | None => st
  end.

(** [startProcess(command, cwd)], up to the point where it returns its
    promise. The tokens the command is cut into only decide which program the
    host launches; the host's answer is [spawned host]. *)
Definition startProcess (k : nat) (command : string) (cwd : option string)
    (host : Host) (st : State) : State :=
  if decide (MAX_SESSIONS <= size (sessions st))%nat then
    resolve k (createError "LIMIT_EXCEEDED"
                 "Maximum 10 sessions allowed. Kill some first." None) st
  else
    let workingDir :=
      if Js.truthy cwd then normalizePath host (default EmptyString cwd) else getHomeDir host in
    let sessionId := generateSessionId host in
    let child := spawn (spawned host) in
    let session := {| process := child; output := []; started := now st;
                      command := command; cwd := workingDir |} in
    let r := length (heap st) in
    let st := withHeap (fun h => h ++ [{| session := session; call := k; reply := None |}]) st in
    let st :=
      match spawned host with
      | SpawnFailed _ msg =>
          resolveStart r (createError "PROCESS_ERROR" ("Failed to start: " +:+ msg) None) st
      | Spawned => st
      end in
    setTimeout (StartSettle r sessionId) 500 st.

(** The callback of [startProcess]'s [setTimeout(..., 500)]. *)
Definition startSettle (r : nat) (sessionId : string) (st : State) : State :=
  match heap st !! r with
  | Some c =>
      if isDead (process (session c)) then
        resolveStart r
          (createError "PROCESS_DIED" "Process exited immediately"
             (Some ("output", Js.join (output (session c))))) st
      else
        resolveStart r
          (Payload sessionId (Js.join (output (session c))) true)
          (withSessions (insert sessionId r) st)
  | None => st
  end.

(** [writeToProcess(sessionId, input)], up to the call of [stdin.write]. *)
Definition writeToProcess (k : nat) (sessionId input : string) (st : State) : State :=
  match getSession sessionId st with
  | None => resolve k (notFound sessionId) st
  | Some (r, c) =>
      if isDead (process (session c)) then
        resolve k
          (createError "PROCESS_DIED" "Process is no longer running"
             (Some ("final_output", Js.join (output (session c)))))
          (withSessions (delete sessionId) st)
      else
        let outputBefore := length (output (session c)) in
        setTimeout (WriteDone k r sessionId outputBefore) 0
          (withHeap (alter (withProcess (stdinWrite input)) r) st)
  end.

(** The callback given to [stdin.write]: what its own code does. After a
    failed write the program does not go on (see [crashes] and [step]). *)
Definition writeDone (k r : nat) (sessionId : string) (outputBefore : nat)
    (host : Host) (st : State) : State :=
  match writeError host with
  | Some msg => resolve k (createError "WRITE_ERROR" ("Failed to write: " +:+ msg) None) st
  | None => setTimeout (WriteSettle k r sessionId outputBefore) 300 st
  end.

(** The callback of [writeToProcess]'s [setTimeout(..., 300)]. *)
Definition writeSettle (k r : nat) (sessionId : string) (outputBefore : nat)
    (st : State) : State :=
  match heap st !! r with
  | Some c =>
      let newOutput := Js.join (Js.slice (Z.of_nat outputBefore) (output (session c))) in
      resolve k (Payload sessionId newOutput (isRunning (process (session c)))) st
  | None => st
  end.

(** [checkOutput], the poll of [readFromProcess]. *)
Definition checkOutput (k r : nat) (sessionId : string) (outputBefore : nat)
    (startTime timeoutMs : Z) (st : State) : State :=
  match heap st !! r with
  | Some c =>
      let newOutput := Js.slice (Z.of_nat outputBefore) (output (session c)) in
      let elapsed := now st - startTime in
      let running := isRunning (process (session c)) in
      if (0 <? Z.of_nat (length newOutput)) || negb running || (timeoutMs <=? elapsed)
      then resolve k (Payload sessionId (Js.join newOutput) running) st
      else setTimeout (ReadPoll k r sessionId outputBefore startTime timeoutMs) 100 st
  | None => st
  end.

(** [readFromProcess(sessionId, timeoutMs = 5000)] *)
Definition readFromProcess (k : nat) (sessionId : string) (timeout_ms : option Z)
    (st : State) : State :=
  let timeoutMs := default 5000 timeout_ms in
  match getSession sessionId st with
  | None => resolve k (notFound sessionId) st
  | Some (r, c) =>
      let outputBefore := length (output (session c)) in
      let startTime := now st in
      checkOutput k r sessionId outputBefore startTime timeoutMs st
  end.

(** [killProcess(sessionId)] *)
Definition killProcess (k : nat) (sessionId : string) (host : Host) (st : State) : State :=
  match getSession sessionId st with
  | None => resolve k (notFound sessionId) st
  | Some (r, c) =>
      let finalOutput := Js.join (output (session c)) in
      let st :=
        if negb (killed (process (session c))) && isNull (exitCode (process (session c)))
        then setTimeout (KillEscalate r) 1000 (sendSignal r SIGTERM host st)
        else st in
      resolve k (Payload sessionId finalOutput false) (withSessions (delete sessionId) st)
  end.

(** The callback of [killProcess]'s [setTimeout(..., 1000)]. *)
Definition killEscalate (r : nat) (host : Host) (st : State) : State :=
  match heap st !! r with
  | Some c =>
      if negb (killed (process (session c))) then sendSignal r SIGKILL host st else st
  | None => st
  end.

(** [listSessions()]. The [Map] is walked in key order here and in insertion
    order by JavaScript; nothing below depends on the order. *)
Definition listSessions (k : nat) (st : State) : State :=
  let sessionList :=
    omap (fun '(id, r) =>
            c ← heap st !! r;
            Some {| info_session_id := id;
                    info_command := command (session c);
                    info_started := started (session c);
                    info_is_running := isRunning (process (session c));
                    info_output_lines := length (output (session c)) |})
         (map_to_list (sessions st)) in
  resolve k (Sessions sessionList) st.

(** The callback of [setInterval(..., CLEANUP_INTERVAL_MS)]: every session
    whose process is dead is deleted. *)
Definition refDead (st : State) (r : nat) : bool :=
  match heap st !! r with
  | Some c => isDead (process (session c))
  | None => false
  end.

Definition cleanup (st : State) : State :=
  withSessions (filter (fun kv => refDead st kv.2 = false)) st.

(** [processInteractive(params)], the entry point; [k] numbers the request. *)
Definition invalidParams (message : string) : Response :=
  createError "INVALID_PARAMS" message None.

Definition processInteractive (k : nat) (params : ProcessInteractiveParams)
    (host : Host) (st : State) : State :=
  if String.eqb (action params) "start" then
    if negb (Js.truthy (p_command params))
    then resolve k (invalidParams "Command required for start action") st
    else startProcess k (default EmptyString (p_command params)) (p_cwd params) host st
  else if String.eqb (action params) "write" then
    if negb (Js.truthy (p_session_id params))
    then resolve k (invalidParams "session_id required for write action") st
    else match p_input params with
         | None => resolve k (invalidParams "input required for write action") st
         | Some input => writeToProcess k (default EmptyString (p_session_id params)) input st
         end
  else if String.eqb (action params) "read" then
    if negb (Js.truthy (p_session_id params))
    then resolve k (invalidParams "session_id required for read action") st
    else readFromProcess k (default EmptyString (p_session_id params)) (p_timeout_ms params) st
  else if String.eqb (action params) "kill" then
    if negb (Js.truthy (p_session_id params))
    then resolve k (invalidParams "session_id required for kill action") st
    else killProcess k (default EmptyString (p_session_id params)) host st
  else if String.eqb (action params) "list" then
    listSessions k st
  else
    resolve k (invalidParams ("Unknown action: " +:+ action params)) st.

(** ** The event loop *)

Inductive Event :=
| Request (params : ProcessInteractiveParams) (host : Host)
| Fire (i : nat) (host : Host)
| Data (r : nat) (data : string)
| Exit (r : nat) (code : Z)
| Terminated (r : nat) (sig : Signal)
| Advance (dt : Z).

Definition runTask (t : Task) (host : Host) (st : State) : State :=
  match t with
  | StartSettle r sessionId => startSettle r sessionId st
  | WriteDone k r sessionId outputBefore => writeDone k r sessionId outputBefore host st
  | WriteSettle k r sessionId outputBefore => writeSettle k r sessionId outputBefore st
  | ReadPoll k r sessionId outputBefore startTime timeoutMs =>
      checkOutput k r sessionId outputBefore startTime timeoutMs st
  | KillEscalate r => killEscalate r host st
  | Cleanup => setTimeout Cleanup CLEANUP_INTERVAL_MS (cleanup st)
  end.

(** A callback that ends the program. When a write to the pipe fails, Node
    runs the callback given to [stdin.write] and then emits ['error'] on
    [child.stdin]; the tool installs its only ['error'] listener on the child
    (not on the pipe) and the server installs no handler for uncaught
    exceptions, so Node exits before the answer of the call leaves. *)
Definition crashes (t : Task) (host : Host) : bool :=
  match t with
  | WriteDone _ _ _ _ => negb (isNull (writeError host))
  | StartSettle _ _ | WriteSettle _ _ _ _ | ReadPoll _ _ _ _ _ _
  | KillEscalate _ | Cleanup => false
  end.

(** One callback runs to completion. [Terminated r sig] is the end of a
    process by a signal, delivered through the handle or sent from elsewhere.
    [None] means that no state follows: the event cannot happen in this state
    (a timer that is not pending or not yet due, output or exit of a process
    that does not exist, a second exit, the clock running backwards), or the
    callback ends the program ([crashes]). *)
Definition step (e : Event) (st : State) : option State :=
  match e with
  | Request params host =>
      Some (processInteractive (calls st) params host (withCalls (S (calls st)) st))
  | Fire i host =>
      match tasks st !! i with
      | Some (Some (due, t)) =>
          if due <=? now st
          then if crashes t host then None
               else Some (runTask t host (withTasks (<[i := None]>) st))
          else None
      | _ => None
      end
  | Data r data =>
      match heap st !! r with
      | Some _ => Some (withHeap (alter (withOutput (addOutput data)) r) st)
      | None => None
      end
  | Exit r code =>
      match heap st !! r with
      | Some c =>
          if exited (process (session c)) then None
          else Some (withHeap (alter (withProcess (setExitCode code)) r) st)
      | None => None
      end
  | Terminated r sig =>
      match heap st !! r with
      | Some c =>
          if exited (process (session c)) then None
          else Some (withHeap (alter (withProcess (setSignalCode sig)) r) st)
      | None => None
      end
  | Advance dt =>
      if 0 <=? dt then Some (withNow (now st + dt) st) else None
  end.

Fixpoint run (events : list Event) (st : State) : option State :=
  match events with
  | [] => Some st
  | e :: rest =>
      match step e st with
      | Some st' => run rest st'
      | None => None
      end
  end.

Definition reachable (st : State) : Prop :=
  exists events, run events initial = Some st.

(** ** The listener on a sequence of chunks

    The process writes its output in chunks. [feed] is the listener
    [addOutput] run on the chunks in order, and [lines] is what it appends:
    every chunk cut at its line feeds, so that the end of a chunk counts as
    the end of a line whether or not the process printed a line feed
    there. *)

Definition lines (chunks : list string) : list string :=
  flat_map Js.split chunks.

Fixpoint feed (chunks : list string) (output : list string) : list string :=
  match chunks with
  | [] => output
  | data :: rest => feed rest (addOutput data output)
  end.

(** ** Predicates used in the statements *)

(** The ways an entry can leave the store in one step: a kill request for
    it, a write request for it that finds the process dead, and the cleanup
    timer finding the process dead. *)
Definition removalCause (e : Event) (st : State) (sessionId : string) : Prop :=
  match e with
  | Request params host =>
      p_session_id params = Some sessionId /\
      (action params = "kill" \/
       (action params = "write" /\ is_Some (p_input params) /\
        exists r c, getSession sessionId st = Some (r, c) /\
                    isDead (process (session c)) = true))
  | Fire i host =>
      exists due r, tasks st !! i = Some (Some (due, Cleanup)) /\
                    sessions st !! sessionId = Some r /\ refDead st r = true
  | _ => False
  end.

(** What holds of every session object: a start that was answered with an
    error has a dead process; a process that was signalled through its
    handle has [killed] set; and the buffer holds at most 1000 lines. *)
Definition replyOk (c : Child) : Prop :=
  match reply c with
  | None | Some (Payload _ _ _) => True
  | Some (Error _ _ _) => isDead (process (session c)) = true
  | Some (Sessions _) => False
  end.

Definition signalOk (c : Child) : Prop :=
  signals (process (session c)) <> [] -> killed (process (session c)) = true.

Definition bufferOk (c : Child) : Prop :=
  (length (output (session c)) <= 1000)%nat.

Definition childOk (c : Child) : Prop := replyOk c /\ signalOk c /\ bufferOk c.

Definition isPayload (o : option Response) : Prop :=
  match o with Some (Payload _ _ _) => True | _ => False end.

(** The invariant of the module: every registered session is a heap object
    whose start was answered with success; an escalation timer is only
    pending for a session whose start was answered; and the two facts above. *)
Record invariant (st : State) : Prop := {
  inv_registered : forall id r,
    sessions st !! id = Some r ->
    exists c, heap st !! r = Some c /\ isPayload (reply c);
  inv_escalate : forall i due r,
    tasks st !! i = Some (Some (due, KillEscalate r)) ->
    exists c, heap st !! r = Some c /\ reply c <> None;
  inv_heap : forall r c,
    heap st !! r = Some c -> childOk c;
}.

(** Session objects are never freed and an answer, once given, stays. *)
Definition extends (st st' : State) : Prop :=
  forall r c, heap st !! r = Some c ->
    exists c', heap st' !! r = Some c' /\
               (reply c <> None -> reply c' = reply c).

Definition safe (st st' : State) : Prop := invariant st' /\ extends st st'.

(** ** Fixtures for the examples *)

Module Demo.

Definition host (b : Byte.byte) : Host :=
  {| randomBytes4 := [Byte.xde; Byte.xad; Byte.xbe; b];
     spawned := Spawned; delivered := Delivered; writeError := None;
     normalizePath := fun path => path; getHomeDir := "C:/Users/me" |}.

Definition params (action : string) (command session_id input : option string)
    (timeout_ms : option Z) : ProcessInteractiveParams :=
  {| action := action; p_command := command; p_cwd := None;
     p_session_id := session_id; p_input := input; p_timeout_ms := timeout_ms |}.

Definition startReq (command : string) (b : Byte.byte) : Event :=
  Request (params "start" (Some command) None None None) (host b).
Definition writeReq (sessionId input : string) : Event :=
  Request (params "write" None (Some sessionId) (Some input) None) (host Byte.x00).
Definition readReq (sessionId : string) (timeout_ms : option Z) : Event :=
  Request (params "read" None (Some sessionId) None timeout_ms) (host Byte.x00).
Definition killReq (sessionId : string) : Event :=
  Request (params "kill" None (Some sessionId) None None) (host Byte.x00).
Definition listReq : Event :=
  Request (params "list" None None None None) (host Byte.x00).
Definition fire (i : nat) : Event := Fire i (host Byte.x00).

(** One session, registered and running. *)
Definition oneSession : list Event :=
  [startReq "python -u -i" Byte.xef; Advance 500; fire 1].

Definition running : State :=
  Eval vm_compute in default initial (run oneSession initial).

(** Eleven starts issued before the first of them has settled. *)
Definition elevenStarts : list Event :=
  map (startReq "cmd")
    [Byte.x00; Byte.x01; Byte.x02; Byte.x03; Byte.x04; Byte.x05;
     Byte.x06; Byte.x07; Byte.x08; Byte.x09; Byte.x0a]
  ++ [Advance 500] ++ map fire (seq 1 11).

(** Two starts for which [randomBytes] returns the same four bytes. *)
Definition sameDraw : list Event :=
  [startReq "python" Byte.x00; Advance 500; fire 1;
   startReq "node" Byte.x00; Advance 500].

(** A command that exits at once: the start, the exit of the process
    within the settle interval, the settle timer, and some later calls. *)
Definition diesAtOnce : list Event :=
  [startReq "exit 3" Byte.xef; Data 0 "bye"; Exit 0 3; Advance 500].
Definition afterDeath : list Event :=
  [listReq; readReq "deadbeef" None; Advance 300000; fire 0].

(** A process that does not end when it receives SIGTERM: start, kill,
    and the escalation timer one second later. *)
Definition stubborn : list Event :=
  [startReq "trap '' TERM; sleep 600" Byte.xef; Advance 500; fire 1;
   killReq "deadbeef"; Advance 1000; fire 2].

(** A process that has printed 1000 lines, a read with the default
    timeout, one more line of output, and the fifty polls of the read. *)
Definition thousandLines : string := Js.join (replicate 1000 "line").

Definition fullBuffer : list Event :=
  [startReq "npm run dev" Byte.xef; Data 0 thousandLines; Advance 500; fire 1;
   readReq "deadbeef" None; Data 0 "ready on http://localhost:3000"]
  ++ flat_map (fun j => [Advance 100; fire (2 + j)]) (seq 0 50).


(** A session whose process exits by itself, then a write to it. *)
Definition exitThenWrite : list Event :=
  oneSession ++ [Exit 0 0].

End Demo.

(** ** Starts that do not overlap

    [pendingStarts] counts the settle timers of start that are pending, that
    is, the starts that have passed the limit check and not yet registered or
    failed. [startsApart] runs a list of events and checks that every start
    request arrives while no such timer is pending. *)

Definition isStartSettle (t : option (Z * Task)) : bool :=
  match t with Some (_, StartSettle _ _) => true | _ => false end.

Definition pendingStarts (st : State) : nat :=
  length (List.filter isStartSettle (tasks st)).

Definition isStartRequest (e : Event) : bool :=
  match e with
  | Request params _ => String.eqb (action params) "start"
  | _ => false
  end.

Fixpoint startsApart (events : list Event) (st : State) : bool :=
  match events with
  | [] => true
  | e :: rest =>
      (negb (isStartRequest e) || Nat.eqb (pendingStarts st) 0)
      && match step e st with
         | Some st' => startsApart rest st'
         | None => true
         end
  end.

(** A step part that arms no settle timer of start and adds no session. *)
Definition calm (st st' : State) : Prop :=
  (exists added, tasks st' = tasks st ++ added /\
                 Forall (fun t => isStartSettle t = false) added) /\
  (size (sessions st') <= size (sessions st))%nat.

(** The cleanup timer is pending. *)
Definition armed (st : State) : Prop :=
  exists i due, tasks st !! i = Some (Some (due, Cleanup)).

(** The polls of one read, fired on time: each poll is armed 100 ms ahead
    and takes the next free place among the pending callbacks. *)
Fixpoint pollsFrom (i n : nat) (host : Host) : list Event :=
  match n with
  | O => []
  | S n => Advance 100 :: Fire i host :: pollsFrom (S i) n host
  end.

(** ** More fixtures *)

Module Scenes.

(** Ten sessions, registered and running: the store at its limit. *)
Definition tenStarts : list Event :=
  map (Demo.startReq "cmd")
    [Byte.x00; Byte.x01; Byte.x02; Byte.x03; Byte.x04;
     Byte.x05; Byte.x06; Byte.x07; Byte.x08; Byte.x09]
  ++ [Advance 500] ++ map Demo.fire (seq 1 10).

Definition full : State :=
  Eval vm_compute in default initial (run tenStarts initial).


(** Two starts, the second after the first has settled. *)
Definition oneByOne : list Event :=
  [Demo.startReq "python" Byte.x00; Advance 500; Demo.fire 1;
   Demo.startReq "node" Byte.x01; Advance 500; Demo.fire 2].

(** One session registered, and a second start that drew the same four
    bytes, its settle timer due. *)
Definition sameDrawn : State :=
  Eval vm_compute in default initial (run Demo.sameDraw initial).

(** One session registered, and a second start whose settle timer is due. *)
Definition secondSettling : State :=
  Eval vm_compute in
    default initial
      (run [Demo.startReq "python" Byte.x00; Advance 500; Demo.fire 1;
            Demo.startReq "node" Byte.x01; Advance 500] initial).

(** A shell that ends by a signal of its own within the settle interval. *)
Definition killsItself : list Event :=
  [Demo.startReq "kill -9 $$" Byte.xef; Terminated 0 SIGKILL; Advance 500; Demo.fire 1].


End Scenes.

(** ** The calls and their answers

    Every request gets the next call number, and its promise is resolved by
    the operation itself or by a callback the operation leaves behind. A
    pending write or read callback carries the number of its call; the
    promise of a start stays with the session object until the ['error']
    listener or the settle timer resolves it. [ledger] lists the calls
    answered so far followed by the calls still owed an answer. *)

Definition taskCall (t : Task) : option nat :=
  match t with
  | WriteDone k _ _ _ | WriteSettle k _ _ _ | ReadPoll k _ _ _ _ _ => Some k
  | StartSettle _ _ | KillEscalate _ | Cleanup => None
  end.

(** The session object a callback has captured. *)
Definition taskRef (t : Task) : option nat :=
  match t with
  | StartSettle r _ | WriteDone _ r _ _ | WriteSettle _ r _ _
  | ReadPoll _ r _ _ _ _ | KillEscalate r => Some r
  | Cleanup => None
  end.

Definition owedByTasks (ts : list (option (Z * Task))) : list nat :=
  omap (fun slot => match slot with Some (_, t) => taskCall t | None => None end) ts.

Definition owedByStarts (h : list Child) : list nat :=
  omap (fun c => match reply c with None => Some (call c) | Some _ => None end) h.

Definition ledger (st : State) : list nat :=
  (replies st).*1 ++ owedByTasks (tasks st) ++ owedByStarts (heap st).

Definition refsOk (st : State) : Prop :=
  forall i due t r,
    tasks st !! i = Some (Some (due, t)) -> taskRef t = Some r ->
    (r < length (heap st))%nat.

(** What one operation does to the books: it posts the calls [ks] (answers
    them or leaves a callback that owes the answer), makes no call of its
    own, frees no session object, and captures only objects that exist. *)
Definition posts (ks : list nat) (st st' : State) : Prop :=
  ledger st' ≡ₚ ks ++ ledger st /\
  calls st' = calls st /\
  (length (heap st) <= length (heap st'))%nat /\
  (refsOk st -> refsOk st').

Definition balanced (st : State) : Prop :=
  ledger st ≡ₚ seq 0 (calls st) /\ refsOk st.

(** ** What a process has printed

    [dataFor r events] is what the process of session object [r] wrote to
    its standard output and standard error in the course of [events], chunk
    by chunk. [keeps] says that a callback leaves every session object in
    place and its buffer as it was. *)

Definition dataFor (r : nat) (events : list Event) : list string :=
  omap (fun e => match e with
                 | Data r' data => if decide (r' = r) then Some data else None
                 | _ => None
                 end) events.

Definition keeps (st st' : State) : Prop :=
  forall r c, heap st !! r = Some c ->
    exists c', heap st' !! r = Some c' /\ output (session c') = output (session c).

(** A lower-case hexadecimal digit. *)
Definition isHexDigit (c : ascii) : bool :=
  let n := N_of_ascii c in
  ((48 <=? n) && (n <=? 57) || (97 <=? n) && (n <=? 102))%N.

(** ** The signals a process is sent

    What holds of every handle: at most one signal was delivered through
    it, and [killed] is set once one was. *)

Definition oneSignal (c : Child) : Prop :=
  (length (signals (process (session c))) <= 1)%nat /\
  (signals (process (session c)) <> [] -> killed (process (session c)) = true).

Definition quiet (st : State) : Prop :=
  forall r c, heap st !! r = Some c -> oneSignal c.

(** ** One call on a session and its answer

    A read or a write takes its mark when the request arrives and answers
    later, from a timer. To say what the answer holds, the call is followed
    through the run: [k] is its number, [r] the session object it found,
    [buffer] the lines buffered when it arrived and [seen] the events since.
    [asksOutput] is a request that reads from, or writes to, session [id]. *)








(** ** Killing processes by id or by name

    [processKill] of [tools/processes]. It runs PowerShell commands through
    [execute] of [utils/powershell] and reads their answers; what PowerShell
    answers is outside the tool. The commands run so far are kept in a log,
    and the answer to a command may depend on all that ran before. *)

Module Processes.

(** A JavaScript value as [JSON.parse] gives it, or [undefined]. Numbers are
    kept abstract; an object lists its own properties, each key once. *)
#[local] Unset Elimination Schemes.
Inductive Value (Num : Type) :=
| Undefined
| Null
| Bool (b : bool)
| Number (x : Num)
| Str (s : string)
| Arr (items : list (Value Num))
| Obj (fields : list (string * Value Num)).
#[local] Set Elimination Schemes.

Arguments Undefined {Num}.
Arguments Null {Num}.
Arguments Bool {Num} b.
Arguments Number {Num} x.
Arguments Str {Num} s.
Arguments Arr {Num} items.
Arguments Obj {Num} fields.

(** What the promise of [execute] resolves to: an error object (a time-out
    or a launch that failed), or the trimmed output with the exit code. *)
Inductive ExecResult :=
| ExecError (code message : string)
| ExecDone (stdout stderr : string) (exitCode : Z).

(** The environment: the answer of [execute] to a command after the
    commands of the log; [JSON.parse], [None] when it throws; the text a
    template literal gives for a value; [String.prototype.trim]; and
    whether a number is falsy (zero or not a number). *)
Record Shell (Num : Type) := {
  execute : list string -> string -> ExecResult;
  parse : string -> option (Value Num);
  show : Value Num -> string;
  trim : string -> string;
  isZero : Num -> bool;
}.

Arguments execute {Num} _ _ _.
Arguments parse {Num} _ _.
Arguments show {Num} _ _.
Arguments trim {Num} _ _.
Arguments isZero {Num} _ _.

Record ProcessKillParams (Num : Type) := {
  pid : option Num;
  name : option string;
  force : option bool;
}.

Arguments pid {Num} _.
Arguments name {Num} _.
Arguments force {Num} _.

Record ProcessKillResult (Num : Type) := {
  killed : list (Value Num);
  failed : list (Value Num);
  count : nat;
}.

Arguments killed {Num} _.
Arguments failed {Num} _.
Arguments count {Num} _.

Definition quote : string := String "034"%char EmptyString.

(** [!!pid] for an optional number. *)
Definition truthyNumber {Num} (sh : Shell Num) (x : option Num) : bool :=
  match x with
  | Some x => negb (isZero sh x)
  | None => false
  end.

(** [force ? '-Force' : ''] *)
Definition forceFlagOf (force : option bool) : string :=
  if default false force then "-Force" else EmptyString.

(** [p.Id]; [None] when the access throws, which it does on [null] and
    [undefined]. *)
Definition getId {Num} (p : Value Num) : option (Value Num) :=
  match p with
  | Undefined | Null => None
  | Obj fields =>
      Some match find (fun kv => String.eqb (fst kv) "Id") fields with
           | Some kv => snd kv
           | None => Undefined
           end
  | Bool _ | Number _ | Str _ | Arr _ => Some Undefined
  end.

(** [Array.isArray(parsed) ? parsed : [parsed]] *)
Definition itemsOf {Num} (parsed : Value Num) : list (Value Num) :=
  match parsed with
  | Arr items => items
  | _ => [parsed]
  end.

Definition stopCommand {Num} (sh : Shell Num) (pid : Value Num) (forceFlag : string) : string :=
  "Stop-Process -Id " +:+ show sh pid +:+ " " +:+ forceFlag
  +:+ " -PassThru -ErrorAction Stop | Select-Object Id".

Definition listCommand (name : string) : string :=
  "Get-Process -Name " +:+ quote +:+ name +:+ quote
  +:+ " -ErrorAction SilentlyContinue | Select-Object Id | ConvertTo-Json -Compress".

Definition killCommand {Num} (sh : Shell Num) (forceFlag : string) (processPid : Value Num)
  : string :=
  "Stop-Process -Id " +:+ show sh processPid +:+ " " +:+ forceFlag
  +:+ " -ErrorAction SilentlyContinue".

(** [!isError(killResult) && killResult.exitCode === 0] *)
Definition succeeded (result : ExecResult) : bool :=
  match result with
  | ExecError _ _ => false
  | ExecDone _ _ exitCode => exitCode =? 0
  end.

(** The loop over [pids]. *)
Fixpoint killEach {Num} (sh : Shell Num) (forceFlag : string) (pids : list (Value Num))
    (killed failed : list (Value Num)) (log : list string)
  : list (Value Num) * list (Value Num) * list string :=
  match pids with
  | [] => (killed, failed, log)
  | processPid :: rest =>
      let killResult := execute sh log (killCommand sh forceFlag processPid) in
      let log := log ++ [killCommand sh forceFlag processPid] in
      if succeeded killResult
      then killEach sh forceFlag rest (killed ++ [processPid]) failed log
      else killEach sh forceFlag rest killed (failed ++ [processPid]) log
  end.

Definition report {Num} (killed failed : list (Value Num)) : ProcessKillResult Num :=
  {| killed := killed; failed := failed; count := length killed |}.

(** The branch [if (pid)]. *)
Definition killByPid {Num} (sh : Shell Num) (pid : Num) (force : option bool)
    (log : list string) : (Response + ProcessKillResult Num) * list string :=
  let forceFlag := forceFlagOf force in
  let command := stopCommand sh (Number pid) forceFlag in
  let result := execute sh log command in
  let log := log ++ [command] in
  match result with
  | ExecError _ _ => (inr (report [] [Number pid]), log)
  | ExecDone _ _ exitCode =>
      if exitCode =? 0 then (inr (report [Number pid] []), log)
      else (inr (report [] [Number pid]), log)
  end.

(** The branch [else if (name)]. *)
Definition killByName {Num} (sh : Shell Num) (name : string) (force : option bool)
    (log : list string) : (Response + ProcessKillResult Num) * list string :=
  let forceFlag := forceFlagOf force in
  let listResult := execute sh log (listCommand name) in
  let log := log ++ [listCommand name] in
  let notFound :=
    createError "PROCESS_NOT_FOUND" ("No processes found matching: " +:+ name) None in
  match listResult with
  | ExecError _ _ => (inl notFound, log)
  | ExecDone stdout _ _ =>
      if negb (Js.truthy (Some (trim sh stdout))) then (inl notFound, log)
      else
        match parse sh stdout ≫= (fun parsed => mapM getId (itemsOf parsed)) with
        | None => (inl (createError "PARSE_ERROR" "Failed to parse process list" None), log)
        | Some pids =>
            let '(killed, failed, log) := killEach sh forceFlag pids [] [] log in
            (inr (report killed failed), log)
        end
  end.

(** [processKill(params)] *)
Definition processKill {Num} (sh : Shell Num) (params : ProcessKillParams Num)
    (log : list string) : (Response + ProcessKillResult Num) * list string :=
  if negb (truthyNumber sh (pid params)) && negb (Js.truthy (name params)) then
    (inl (createError "INVALID_ARGUMENT" "Must specify either pid or name" None), log)
  else
    match pid params with
    | Some x =>
        if negb (isZero sh x) then killByPid sh x (force params) log
        else if Js.truthy (name params)
             then killByName sh (default EmptyString (name params)) (force params) log
             else (inr (report [] []), log)
    | None =>
        if Js.truthy (name params)
        then killByName sh (default EmptyString (name params)) (force params) log
        else (inr (report [] []), log)
    end.

(** The text of a template literal for a value with integer numbers: what
    [String(value)] gives. *)
Fixpoint showValue (v : Value Z) : string :=
  match v with
  | Undefined => "undefined"
  | Null => "null"
  | Bool b => if b then "true" else "false"
  | Number x => DecimalString.NilZero.string_of_int (Z.to_int x)
  | Str s => s
  | Arr items =>
      String.concat ","
        (map (fun item => match item with
                          | Undefined | Null => EmptyString
                          | _ => showValue item
                          end) items)
  | Obj _ => "[object Object]"
  end.

(** A fixture: PowerShell finds two processes by the name, stops the first
    and fails to stop the second. *)
Definition twoFound : Shell Z :=
  {| execute := fun log _ =>
       match log with
       | [] => ExecDone ("[{" +:+ quote +:+ "Id" +:+ quote +:+ ":4},{"
                         +:+ quote +:+ "Id" +:+ quote +:+ ":8}]") EmptyString 0
       | [_] => ExecDone EmptyString EmptyString 0
       | _ => ExecDone EmptyString "Access is denied" 1
       end;
     parse := fun _ => Some (Arr [Obj [("Id", Number 4)]; Obj [("Id", Number 8)]]);
     show := showValue;
     trim := fun s => s;
     isZero := Z.eqb 0 |}.

End Processes.

(** ** The line buffer: basic facts *)


Lemma slice_nonneg {A} (k : nat) (arr : list A) :
  Js.slice (Z.of_nat k) arr = drop k arr.
Proof.
  unfold Js.slice.
  destruct (Z.ltb_spec (Z.of_nat k) 0) as [Hneg|_]; [lia|].
  destruct (Z.min_spec (Z.of_nat k) (Z.of_nat (length arr))) as [[_ ->]|[Hle ->]].
  - by rewrite Nat2Z.id.
  - rewrite Nat2Z.id. rewrite !drop_ge; [done|lia|done].
Qed.

Lemma slice_last {A} (n : nat) (arr : list A) :
  (0 < n)%nat -> Js.slice (- Z.of_nat n) arr = drop (length arr - n) arr.
Proof.
  intros Hpos. unfold Js.slice.
  destruct (Z.ltb_spec (- Z.of_nat n) 0) as [Hneg|Hzero]; [|lia].
  f_equal. lia.
Qed.

Lemma addOutput_drop (data : string) (output : list string) :
  addOutput data output =
  drop (length (output ++ Js.split data) - 1000) (output ++ Js.split data).
Proof.
  unfold addOutput, MAX_OUTPUT_LINES.
  set (all := output ++ Js.split data).
  destruct (Z.gtb_spec (Z.of_nat (length all)) 1000) as [Hbig|Hsmall].
  - apply (slice_last 1000). lia.
  - replace (length all - 1000)%nat with 0%nat by lia. done.
Qed.

(** ** Session ids *)

Lemma hex_roundtrip (b : Byte.byte) :
  Js.fromHexPair (Js.hexDigit (Byte.to_N b / 16)) (Js.hexDigit (Byte.to_N b mod 16)) = Some b.
Proof. destruct b; vm_compute; reflexivity. Qed.

Lemma toHex_inj (a b : list Byte.byte) : Js.toHex a = Js.toHex b -> a = b.
Proof.
  revert b. induction a as [|x a IH]; intros [|y b] Heq; simpl in Heq;
    try discriminate; [done|].
  injection Heq as Hhi Hlo Hrest.
  pose proof (hex_roundtrip x) as Hx. rewrite Hhi, Hlo, hex_roundtrip in Hx.
  f_equal; [congruence | by apply IH].
Qed.

(** ** The frame of the primitive state updates *)

Lemma resolve_frame (k : nat) (v : Response) (st : State) :
  sessions (resolve k v st) = sessions st /\
  heap (resolve k v st) = heap st /\
  tasks (resolve k v st) = tasks st /\
  replies (resolve k v st) = replies st ++ [(k, v)].
Proof. done. Qed.

Lemma resolveStart_sessions (r : nat) (v : Response) (st : State) :
  sessions (resolveStart r v st) = sessions st.
Proof.
  unfold resolveStart. destruct (heap st !! r) as [c|]; [|done].
  by destruct (reply c).
Qed.

Lemma resolveStart_tasks (r : nat) (v : Response) (st : State) :
  tasks (resolveStart r v st) = tasks st.
Proof.
  unfold resolveStart. destruct (heap st !! r) as [c|]; [|done].
  by destruct (reply c).
Qed.

Lemma sendSignal_sessions (r : nat) (sig : Signal) (host : Host) (st : State) :
  sessions (sendSignal r sig host st) = sessions st.
Proof.
  unfold sendSignal. destruct (heap st !! r) as [c|]; [|done].
  destruct (kill sig (delivered host) (process (session c))) as [p [msg|]]; [|done].
  by rewrite resolveStart_sessions.
Qed.

Lemma getSession_None (sessionId : string) (st : State) :
  sessions st !! sessionId = None -> getSession sessionId st = None.
Proof. unfold getSession. by intros ->. Qed.

Lemma getSession_Some (sessionId : string) (st : State) (r : nat) (c : Child) :
  getSession sessionId st = Some (r, c) ->
  sessions st !! sessionId = Some r /\ heap st !! r = Some c.
Proof.
  unfold getSession. destruct (sessions st !! sessionId) as [r'|]; [|done].
  destruct (heap st !! r') as [c'|] eqn:Hc; [|done]. intros [= <- <-]. done.
Qed.

(** ** Validation at the entry point *)

(** C10. An empty [command] (for start) and an empty [session_id] (for
    write, read and kill) are answered by the entry point itself with the
    error whose code is [INVALID_PARAMS]: the state is the old one with that
    reply added, whatever the store holds, so the store is not consulted and
    no not-found error can result. An absent [input] is answered the same
    way. An empty [input] is
    accepted: the request goes to [writeToProcess] with the empty [input], and when
    the session is registered and its process is running, the empty string is handed to
    [stdin.write]. *)
Theorem dispatch_empty_strings (k : nat) (host : Host) (st : State)
    (command cwd session_id input : option string) (timeout_ms : option Z)
    (c0 : ascii) (id0 : string) :
  let id := String c0 id0 in
  let request a cmd sid inp :=
    processInteractive k
      {| action := a; p_command := cmd; p_cwd := cwd; p_session_id := sid;
         p_input := inp; p_timeout_ms := timeout_ms |} host st in
  request "start" (Some EmptyString) session_id input
    = resolve k (Error "INVALID_PARAMS" "Command required for start action" None) st /\
  request "write" command (Some EmptyString) input
    = resolve k (Error "INVALID_PARAMS" "session_id required for write action" None) st /\
  request "read" command (Some EmptyString) input
    = resolve k (Error "INVALID_PARAMS" "session_id required for read action" None) st /\
  request "kill" command (Some EmptyString) input
    = resolve k (Error "INVALID_PARAMS" "session_id required for kill action" None) st /\
  request "write" command (Some id) None
    = resolve k (Error "INVALID_PARAMS" "input required for write action" None) st /\
  request "write" command (Some id) (Some EmptyString) = writeToProcess k id EmptyString st /\
  (forall r c,
     getSession id st = Some (r, c) ->
     isDead (process (session c)) = false ->
     exists c',
       heap (writeToProcess k id EmptyString st) !! r = Some c' /\
       written (process (session c')) = written (process (session c)) ++ [EmptyString] /\
       sessions (writeToProcess k id EmptyString st) = sessions st).
Proof.
  intros id request. repeat split; try reflexivity.
  intros r c Hget Halive. unfold writeToProcess. rewrite Hget, Halive.
  apply getSession_Some in Hget as [_ Hc]. simpl.
  rewrite list_lookup_alter. destruct (decide (r = r)); [|done].
  rewrite Hc. simpl. eexists. split; [reflexivity|]. done.
Qed.

(** ** Unknown session ids *)

(** C8 (as the code has it). For a session id that is not in the store,
    write, read and kill each answer the error [SESSION_NOT_FOUND] with the
    message [Session <id> not found], and the state is the old one with that
    reply added: the store, the session objects and the pending callbacks are
    untouched. *)
Theorem unknown_session_not_found (k : nat) (sessionId input : string)
    (timeout_ms : option Z) (host : Host) (st : State) :
  sessions st !! sessionId = None ->
  let answer :=
    resolve k (Error "SESSION_NOT_FOUND" ("Session " +:+ sessionId +:+ " not found") None) st in
  writeToProcess k sessionId input st = answer /\
  readFromProcess k sessionId timeout_ms st = answer /\
  killProcess k sessionId host st = answer /\
  sessions answer = sessions st /\ heap answer = heap st /\ tasks answer = tasks st.
Proof.
  intros Hnone answer. apply getSession_None in Hnone.
  unfold writeToProcess, readFromProcess, killProcess. rewrite Hnone. done.
Qed.

Lemma unknown_session_not_found_witness :
  writeToProcess 0 "deadbeef" "x" initial
  = resolve 0 (Error "SESSION_NOT_FOUND" "Session deadbeef not found" None) initial.
Proof.
  apply (unknown_session_not_found 0 "deadbeef" "x" None (Demo.host Byte.x00) initial).
  reflexivity.
Defined.

(** The tool sends the code [SESSION_NOT_FOUND]; no path sends [NOT_FOUND]. *)
Lemma not_found_code_is_session_not_found :
  sessions initial !! "deadbeef" = None /\
  replies (writeToProcess 0 "deadbeef" "x" initial)
    = [(0%nat, Error "SESSION_NOT_FOUND" "Session deadbeef not found" None)] /\
  codeOf (Error "SESSION_NOT_FOUND" "Session deadbeef not found" None) <> Some "NOT_FOUND".
Proof.
  split; [reflexivity|]. split; [reflexivity|]. simpl. discriminate.
Qed.

Lemma dispatch_empty_strings_witness :
  exists c',
    heap (writeToProcess 1 "deadbeef" EmptyString Demo.running) !! 0%nat = Some c' /\
    written (process (session c')) = [EmptyString].
Proof.
  destruct (dispatch_empty_strings 1 (Demo.host Byte.x00) Demo.running
              None None None None None "d" "eadbeef") as (_ & _ & _ & _ & _ & _ & H).
  edestruct (H 0%nat) as (c' & Hc' & Hwritten & _);
    [vm_compute; reflexivity | reflexivity |].
  exists c'. split; [exact Hc' | exact Hwritten].
Defined.

(** ** The session limit *)

Lemma startProcess_at_capacity (k : nat) (command : string) (cwd : option string)
    (host : Host) (st : State) :
  (MAX_SESSIONS <= size (sessions st))%nat ->
  startProcess k command cwd host st
  = resolve k (Error "LIMIT_EXCEEDED" "Maximum 10 sessions allowed. Kill some first." None) st.
Proof. intros Hfull. unfold startProcess. by rewrite decide_True. Qed.

(** C1 (the code at the failing input). Eleven start requests arrive before
    the first settle timer fires, on the empty store. Each of them passes the
    size check, which only counts sessions already registered; 500 ms later
    each timer registers its session without looking at the size again. All
    eleven requests are answered with success and the store holds eleven
    sessions. *)
Theorem concurrent_starts_exceed_limit :
  exists st,
    run Demo.elevenStarts initial = Some st /\
    size (sessions st) = 11%nat /\
    (MAX_SESSIONS < size (sessions st))%nat /\
    length (replies st) = 11%nat /\
    Forall (fun kv => isError kv.2 = false) (replies st).
Proof.
  eexists. split; [vm_compute; reflexivity|].
  split; [reflexivity|]. split; [vm_compute; lia|]. split; [reflexivity|].
  repeat constructor.
Qed.

(** ** Registration *)

Lemma startProcess_schedules (k : nat) (command : string) (cwd : option string)
    (host : Host) (st : State) :
  (size (sessions st) < MAX_SESSIONS)%nat ->
  tasks (startProcess k command cwd host st)
  = tasks st ++ [Some (now st + 500, StartSettle (length (heap st)) (generateSessionId host))] /\
  sessions (startProcess k command cwd host st) = sessions st.
Proof.
  intros Hroom. unfold startProcess. rewrite decide_False by lia.
  destruct (spawned host) as [|errno msg]; simpl; [done|].
  rewrite resolveStart_tasks, resolveStart_sessions. simpl.
  unfold resolveStart. simpl. rewrite lookup_app_r by lia.
  rewrite Nat.sub_diag. simpl. done.
Qed.

(** C9 (as the code has it). The id of a session is the hexadecimal form of
    the four bytes drawn for its start: different draws give different ids,
    and the store is not consulted when the id is made (the id the settle
    timer carries is the same whatever the store holds). When the settle timer
    finds the process alive, it registers the session under that id whatever
    the store holds, answers the start with that id, and leaves the entries of
    all other ids as they were. When the id is not a key of the store, the
    store gains one entry and every existing entry stays. When the id is a
    key, the store keeps its size and the entry now leads to the new session:
    the session that was registered under the id has lost its entry. *)
Theorem registration_under_drawn_id (r : nat) (sessionId : string) (c : Child)
    (st : State) :
  heap st !! r = Some c ->
  isDead (process (session c)) = false ->
  let st' := startSettle r sessionId st in
  sessions st' = <[sessionId := r]> (sessions st) /\
  sessions st' !! sessionId = Some r /\
  (forall id', id' <> sessionId -> sessions st' !! id' = sessions st !! id') /\
  (reply c = None ->
   replies st' = replies st ++
     [(call c, Payload sessionId (Js.join (output (session c))) true)]) /\
  (sessions st !! sessionId = None ->
   size (sessions st') = S (size (sessions st)) /\
   (forall id' r', sessions st !! id' = Some r' -> sessions st' !! id' = Some r')) /\
  (forall r0, sessions st !! sessionId = Some r0 ->
   size (sessions st') = size (sessions st) /\
   (r0 <> r -> sessions st' !! sessionId <> Some r0)) /\
  (forall k command cwd host host',
     (size (sessions st) < MAX_SESSIONS)%nat ->
     last (tasks (startProcess k command cwd host st))
     = Some (Some (now st + 500, StartSettle (length (heap st)) (Js.toHex (randomBytes4 host)))) /\
     (randomBytes4 host <> randomBytes4 host' ->
      generateSessionId host <> generateSessionId host')).
Proof.
  intros Hc Halive st'.
  assert (sessions st' = <[sessionId := r]> (sessions st)) as Hst'.
  { unfold st', startSettle. rewrite Hc, Halive. by rewrite resolveStart_sessions. }
  rewrite Hst'. split; [done|]. split; [apply lookup_insert_eq|].
  split; [intros id' Hne; by rewrite lookup_insert_ne|]. split.
  { intros Hnone. unfold st', startSettle. rewrite Hc, Halive. unfold resolveStart.
    change (heap (withSessions _ st)) with (heap st). rewrite Hc, Hnone. done. }
  split.
  { intros Hfresh. split; [by apply map_size_insert_None|].
    intros id' r' Hid'. rewrite lookup_insert_ne; [done|]. congruence. }
  split.
  { intros r0 Hused. split; [by apply map_size_insert_Some|].
    intros Hne. rewrite lookup_insert_eq. congruence. }
  intros k command cwd host host' Hroom. split.
  - destruct (startProcess_schedules k command cwd host st Hroom) as [-> _].
    by rewrite last_snoc.
  - intros Hne Heq. apply Hne. by apply toHex_inj.
Qed.

Lemma registration_under_drawn_id_witness :
  sessions (startSettle 1 "deadbe01" Scenes.secondSettling) !! "deadbe01" = Some 1%nat /\
  sessions (startSettle 1 "deadbe01" Scenes.secondSettling) !! "deadbe00" = Some 0%nat.
Proof.
  edestruct (registration_under_drawn_id 1 "deadbe01")
    with (st := Scenes.secondSettling) as (_ & Hnew & Hother & _);
    [vm_compute; reflexivity | reflexivity |].
  split; [exact Hnew|]. rewrite Hother; [reflexivity | discriminate].
Defined.

(** The same four bytes drawn twice: both starts succeed with the same id,
    and the second registration takes the entry of the first. *)
Lemma same_draw_replaces_entry :
  exists st1 st2,
    run Demo.sameDraw initial = Some st1 /\
    sessions st1 !! "deadbe00" = Some 0%nat /\
    step (Demo.fire 2) st1 = Some st2 /\
    sessions st2 !! "deadbe00" = Some 1%nat /\
    size (sessions st2) = 1%nat /\
    replies st2 = [(0%nat, Payload "deadbe00" EmptyString true); (1%nat, Payload "deadbe00" EmptyString true)].
Proof.
  eexists. eexists. split; [vm_compute; reflexivity|].
  split; [reflexivity|]. split; [vm_compute; reflexivity|].
  split; [reflexivity|]. split; reflexivity.
Qed.

(** ** What removes a session from the store *)

Lemma checkOutput_sessions (k r : nat) (id : string) (mark : nat) (t0 t : Z) (st : State) :
  sessions (checkOutput k r id mark t0 t st) = sessions st.
Proof.
  unfold checkOutput. destruct (heap st !! r) as [c|]; [|done].
  by destruct (_ || _).
Qed.

Lemma readFromProcess_sessions (k : nat) (id : string) (t : option Z) (st : State) :
  sessions (readFromProcess k id t st) = sessions st.
Proof.
  unfold readFromProcess. destruct (getSession id st) as [[r c]|]; [|done].
  apply checkOutput_sessions.
Qed.

Lemma listSessions_sessions (k : nat) (st : State) :
  sessions (listSessions k st) = sessions st.
Proof. done. Qed.

Lemma startProcess_sessions (k : nat) (command : string) (cwd : option string)
    (host : Host) (st : State) :
  sessions (startProcess k command cwd host st) = sessions st.
Proof.
  unfold startProcess. destruct (decide _); [done|].
  destruct (spawned host); simpl; [done|]. by rewrite resolveStart_sessions.
Qed.

Lemma truthy_Some (o : option string) :
  Js.truthy o = true -> o = Some (default EmptyString o).
Proof. by destruct o as [[|]|]. Qed.

Lemma request_removal (k : nat) (params : ProcessInteractiveParams) (host : Host)
    (st : State) (id : string) :
  is_Some (sessions st !! id) ->
  sessions (processInteractive k params host st) !! id = None ->
  removalCause (Request params host) st id.
Proof.
  intros [r Hr] Hgone. unfold processInteractive in Hgone. simpl.
  destruct (String.eqb_spec (action params) "start") as [Hact|_].
  { destruct (negb _); [simpl in Hgone; congruence|].
    rewrite startProcess_sessions in Hgone. congruence. }
  destruct (String.eqb_spec (action params) "write") as [Hact|_].
  { destruct (Js.truthy (p_session_id params)) eqn:Hsid;
      [|simpl in Hgone; congruence].
    apply truthy_Some in Hsid. simpl in Hgone.
    destruct (p_input params) as [input|] eqn:Hin; [|simpl in Hgone; congruence].
    unfold writeToProcess in Hgone.
    destruct (getSession _ st) as [[r' c]|] eqn:Hget; [|simpl in Hgone; congruence].
    destruct (isDead _) eqn:Hdead; [|simpl in Hgone; congruence].
    simpl in Hgone. apply lookup_delete_None in Hgone as [<-|?]; [|congruence].
    split; [done|]. right. split; [done|]. split; [by eexists|]. eauto. }
  destruct (String.eqb_spec (action params) "read") as [Hact|_].
  { destruct (negb _); [simpl in Hgone; congruence|].
    rewrite readFromProcess_sessions in Hgone. congruence. }
  destruct (String.eqb_spec (action params) "kill") as [Hact|_].
  { destruct (Js.truthy (p_session_id params)) eqn:Hsid;
      [|simpl in Hgone; congruence].
    apply truthy_Some in Hsid. simpl in Hgone. unfold killProcess in Hgone.
    destruct (getSession _ st) as [[r' c]|] eqn:Hget; [|simpl in Hgone; congruence].
    simpl in Hgone. apply lookup_delete_None in Hgone as [<-|Hgone]; [by split; [|left]|].
    destruct (negb _ && _); simpl in Hgone;
      [rewrite sendSignal_sessions in Hgone|]; congruence. }
  destruct (String.eqb (action params) "list"); simpl in Hgone; congruence.
Qed.

Lemma task_removal (t : Task) (host : Host) (st : State) (id : string) (r : nat) :
  sessions st !! id = Some r ->
  sessions (runTask t host st) !! id = None ->
  t = Cleanup /\ refDead st r = true.
Proof.
  intros Hr Hgone. destruct t as [r' sid|k r' sid m|k r' sid m|k r' sid m t0 t|r'|];
    simpl in Hgone.
  - unfold startSettle in Hgone. destruct (heap st !! r') as [c|]; [|congruence].
    destruct (isDead _); rewrite resolveStart_sessions in Hgone; [congruence|].
    simpl in Hgone. apply lookup_insert_None in Hgone as [? _]. congruence.
  - unfold writeDone in Hgone. destruct (writeError host); simpl in Hgone; congruence.
  - unfold writeSettle in Hgone. destruct (heap st !! r'); simpl in Hgone; congruence.
  - rewrite checkOutput_sessions in Hgone. congruence.
  - unfold killEscalate in Hgone. destruct (heap st !! r') as [c|]; [|congruence].
    destruct (negb _); [rewrite sendSignal_sessions in Hgone|]; congruence.
  - split; [done|]. apply map_lookup_filter_None in Hgone as [?|Hdead]; [congruence|].
    specialize (Hdead r Hr). simpl in Hdead. by destruct (refDead st r).
Qed.

Ltac store_kept Hin Hout :=
  destruct Hin as [? Hin]; simpl in Hout; congruence.

(** When one step makes an id leave the store, the step is a kill request
    for that id, a write request for that id that found its process dead, or
    the cleanup timer finding its process dead. *)
Lemma id_removal_cause (e : Event) (st st' : State) (id : string) :
  step e st = Some st' ->
  is_Some (sessions st !! id) ->
  sessions st' !! id = None ->
  removalCause e st id.
Proof.
  intros Hstep Hin Hout. destruct e as [params host|i host|r data|r code|r sig|dt];
    simpl in Hstep.
  - injection Hstep as <-. by apply (request_removal (calls st) params host
                                       (withCalls (S (calls st)) st) id).
  - destruct (tasks st !! i) as [[[due t]|]|] eqn:Hi; try discriminate.
    destruct (due <=? now st); [|discriminate].
    destruct (crashes t host); [discriminate|]. injection Hstep as <-.
    destruct Hin as [r Hr].
    destruct (task_removal t host (withTasks <[i:=None]> st) id r Hr Hout) as [-> Hdead].
    simpl. eauto.
  - destruct (heap st !! r); [|discriminate]. injection Hstep as <-.
    store_kept Hin Hout.
  - destruct (heap st !! r) as [c|]; [|discriminate].
    destruct (exited _); [discriminate|]. injection Hstep as <-.
    store_kept Hin Hout.
  - destruct (heap st !! r) as [c|]; [|discriminate].
    destruct (exited _); [discriminate|].
    injection Hstep as <-. store_kept Hin Hout.
  - destruct (0 <=? dt); [|discriminate]. injection Hstep as <-.
    store_kept Hin Hout.
Qed.

(** No request puts an entry into the store or changes one, and of the
    timers only the settle timer of a start does. *)
Lemma request_sessions_sub (k : nat) (params : ProcessInteractiveParams) (host : Host)
    (st : State) :
  sessions (processInteractive k params host st) ⊆ sessions st.
Proof.
  unfold processInteractive.
  repeat match goal with
         | |- context [if ?b then _ else _] => destruct b
         | |- context [match ?o with Some _ => _ | None => _ end] => destruct o
         end;
    rewrite ?startProcess_sessions, ?readFromProcess_sessions; try done.
  - unfold writeToProcess. destruct (getSession _ st) as [[r c]|]; [|done].
    destruct (isDead _); [apply delete_subseteq|done].
  - unfold killProcess. destruct (getSession _ st) as [[r c]|]; [|done]. simpl.
    destruct (_ && _); simpl; rewrite ?sendSignal_sessions; apply delete_subseteq.
Qed.

Lemma task_sessions_sub (t : Task) (host : Host) (st : State) :
  sessions (runTask t host st) ⊆ sessions st \/
  exists r sessionId,
    t = StartSettle r sessionId /\
    sessions (runTask t host st) = <[sessionId := r]> (sessions st).
Proof.
  destruct t as [r' sid|k r' sid m|k r' sid m|k r' sid m t0 t|r'|]; simpl.
  - unfold startSettle. destruct (heap st !! r') as [c|]; [|by left].
    destruct (isDead _); rewrite resolveStart_sessions; [by left|]. right. eauto.
  - left. unfold writeDone. by destruct (writeError host).
  - left. unfold writeSettle. by destruct (heap st !! r').
  - left. by rewrite checkOutput_sessions.
  - left. unfold killEscalate. destruct (heap st !! r') as [c|]; [|done].
    destruct (negb _); [by rewrite sendSignal_sessions|done].
  - left. apply map_filter_subseteq.
Qed.

(** C3 (as the code has it). Whenever one step of the module takes the
    entry of a session out of the store (the id no longer leads to that
    session), the step is one of four: a kill request for the id; a write
    request for the id that found the process dead; the cleanup timer finding
    the process dead; or the settle timer of another start that drew the same
    id, whose registration replaces the entry. Nothing else does: not read,
    not list, not a write to a running process, not the timers of write, read
    and kill, and not the arrival of output or the end of a process. *)
Theorem removal_only_by_kill_write_cleanup_replace
    (e : Event) (st st' : State) (id : string) (r : nat) :
  step e st = Some st' ->
  sessions st !! id = Some r ->
  sessions st' !! id <> Some r ->
  (sessions st' !! id = None /\ removalCause e st id) \/
  (exists i host due r',
     e = Fire i host /\ tasks st !! i = Some (Some (due, StartSettle r' id)) /\
     r' <> r /\ sessions st' !! id = Some r').
Proof.
  intros Hstep Hin Hout.
  destruct (sessions st' !! id) as [r''|] eqn:Hid'.
  2:{ left. split; [done|]. by apply (id_removal_cause e st st' id). }
  right. assert (r'' <> r) as Hne by congruence.
  assert (forall m : gmap string nat, m ⊆ sessions st -> m !! id = Some r'' -> False)
    as Hsub.
  { intros m Hm Hlook. apply Hne.
    pose proof (lookup_weaken m (sessions st) id r'' Hlook Hm). congruence. }
  destruct e as [params host|i host|r0 data|r0 code|r0 sig|dt]; simpl in Hstep.
  - injection Hstep as <-. exfalso.
    by apply (Hsub _ (request_sessions_sub (calls st) params host
                        (withCalls (S (calls st)) st))).
  - destruct (tasks st !! i) as [[[due t]|]|] eqn:Hi; try discriminate.
    destruct (due <=? now st); [|discriminate].
    destruct (crashes t host); [discriminate|]. injection Hstep as <-.
    destruct (task_sessions_sub t host (withTasks <[i:=None]> st))
      as [Hsame|(r' & sid & -> & Hins)]; [exfalso; by apply (Hsub _ Hsame)|].
    rewrite Hins in Hid'. simpl in Hid'.
    destruct (decide (sid = id)) as [->|Hother].
    + rewrite lookup_insert_eq in Hid'. injection Hid' as ->.
      by exists i, host, due, r''.
    + rewrite lookup_insert_ne in Hid' by done. congruence.
  - destruct (heap st !! r0); [|discriminate]. injection Hstep as <-.
    simpl in Hid'. congruence.
  - destruct (heap st !! r0) as [c|]; [|discriminate].
    destruct (exited _); [discriminate|]. injection Hstep as <-.
    simpl in Hid'. congruence.
  - destruct (heap st !! r0) as [c|]; [|discriminate].
    destruct (exited _); [discriminate|]. injection Hstep as <-.
    simpl in Hid'. congruence.
  - destruct (0 <=? dt); [|discriminate]. injection Hstep as <-.
    simpl in Hid'. congruence.
Qed.

Lemma removal_only_by_kill_write_cleanup_replace_witness :
  (sessions (default initial (step (Demo.fire 2) Scenes.sameDrawn)) !! "deadbe00" = None /\
   removalCause (Demo.fire 2) Scenes.sameDrawn "deadbe00") \/
  (exists i host due r',
     Demo.fire 2 = Fire i host /\
     tasks Scenes.sameDrawn !! i = Some (Some (due, StartSettle r' "deadbe00")) /\
     r' <> 0%nat /\
     sessions (default initial (step (Demo.fire 2) Scenes.sameDrawn)) !! "deadbe00" = Some r').
Proof.
  apply (removal_only_by_kill_write_cleanup_replace (Demo.fire 2) Scenes.sameDrawn
           (default initial (step (Demo.fire 2) Scenes.sameDrawn)) "deadbe00" 0).
  - vm_compute. reflexivity.
  - vm_compute. reflexivity.
  - vm_compute. discriminate.
Defined.

(** Two ways the claim leaves out. A write to a session whose process has
    exited takes the session out of the store. And when a later start draws
    the id of a registered session, its settle timer puts the new session
    under the id: the earlier session is no longer in the store, though
    nobody killed it and its process runs. *)
Lemma write_and_same_draw_remove_sessions :
  (exists st st',
     run Demo.exitThenWrite initial = Some st /\
     sessions st !! "deadbeef" = Some 0%nat /\
     step (Demo.writeReq "deadbeef" "x") st = Some st' /\
     sessions st' !! "deadbeef" = None /\
     replies st' = replies st ++
       [(1%nat, Error "PROCESS_DIED" "Process is no longer running"
                  (Some ("final_output", EmptyString)))]) /\
  (exists st st' c,
     run Demo.sameDraw initial = Some st /\
     map_to_list (sessions st) = [("deadbe00", 0%nat)] /\
     step (Demo.fire 2) st = Some st' /\
     map_to_list (sessions st') = [("deadbe00", 1%nat)] /\
     heap st' !! 0%nat = Some c /\
     isRunning (process (session c)) = true).
Proof.
  split.
  - eexists. eexists. split; [vm_compute; reflexivity|].
    split; [reflexivity|]. split; [vm_compute; reflexivity|].
    split; reflexivity.
  - eexists. eexists. eexists. split; [vm_compute; reflexivity|].
    split; [vm_compute; reflexivity|]. split; [vm_compute; reflexivity|].
    split; [vm_compute; reflexivity|]. split; reflexivity.
Qed.

(** ** The invariant and its preservation *)

Lemma extends_refl (st : State) : extends st st.
Proof. intros r c Hc. eauto. Qed.

Lemma extends_heap (st st' : State) : heap st' = heap st -> extends st st'.
Proof. intros Hh r c Hc. rewrite Hh. eauto. Qed.

Lemma extends_trans (a b c : State) : extends a b -> extends b c -> extends a c.
Proof.
  intros Hab Hbc r x Hx. destruct (Hab r x Hx) as (y & Hy & Hxy).
  destruct (Hbc r y Hy) as (z & Hz & Hyz). exists z. split; [done|].
  intros Hne. rewrite Hyz; [by apply Hxy|]. by rewrite Hxy.
Qed.

Lemma safe_trans (a b c : State) :
  safe a b -> (invariant b -> safe b c) -> safe a c.
Proof.
  intros [Hb Hab] Hbc. destruct (Hbc Hb) as [Hc Hbc'].
  split; [done|]. by eapply extends_trans.
Qed.

Lemma safe_frame (st st' : State) :
  sessions st' = sessions st -> heap st' = heap st -> tasks st' = tasks st ->
  invariant st -> safe st st'.
Proof.
  intros Hs Hh Ht [H1 H2 H3]. split.
  - split; rewrite ?Hs, ?Hh, ?Ht; done.
  - intros r c Hc. rewrite Hh. eauto.
Qed.

Lemma safe_tasks (f : list (option (Z * Task)) -> list (option (Z * Task))) (st : State) :
  (forall i due r,
     f (tasks st) !! i = Some (Some (due, KillEscalate r)) ->
     (exists j due', tasks st !! j = Some (Some (due', KillEscalate r))) \/
     (exists c, heap st !! r = Some c /\ reply c <> None)) ->
  invariant st -> safe st (withTasks f st).
Proof.
  intros Hf [H1 H2 H3]. split; [|by apply extends_heap].
  split; simpl; [done| |done].
  intros i due r Hi. destruct (Hf i due r Hi) as [(j & due' & Hj)|?]; eauto.
Qed.

Lemma safe_setTimeout (t : Task) (ms : Z) (st : State) :
  (forall r, t = KillEscalate r -> exists c, heap st !! r = Some c /\ reply c <> None) ->
  invariant st -> safe st (setTimeout t ms st).
Proof.
  intros Ht. apply safe_tasks. intros i due r Hi.
  apply lookup_app_Some in Hi as [Hi|[_ Hi]]; [eauto|].
  apply list_lookup_singleton_Some in Hi as [_ [= _ ->]]. right. by apply Ht.
Qed.

Lemma safe_clear (i : nat) (st : State) :
  invariant st -> safe st (withTasks <[i:=None]> st).
Proof.
  apply safe_tasks. intros j due r Hj.
  apply list_lookup_insert_Some in Hj as [(_ & ? & _)|[_ Hj]]; [done|eauto].
Qed.

Lemma safe_sessions (f : gmap string nat -> gmap string nat) (st : State) :
  (forall id r,
     f (sessions st) !! id = Some r ->
     sessions st !! id = Some r \/
     exists c, heap st !! r = Some c /\ isPayload (reply c)) ->
  invariant st -> safe st (withSessions f st).
Proof.
  intros Hf [H1 H2 H3]. split; [|by apply extends_heap].
  split; simpl; [|done|done].
  intros id r Hid. destruct (Hf id r Hid) as [?|?]; eauto.
Qed.

Lemma safe_alter (f : Child -> Child) (r : nat) (st : State) :
  (forall c, heap st !! r = Some c -> childOk c ->
             reply (f c) = reply c /\ childOk (f c)) ->
  invariant st -> safe st (withHeap (alter f r) st).
Proof.
  intros Hf [H1 H2 H3].
  assert (forall r' c, heap st !! r' = Some c ->
            exists c', alter f r (heap st) !! r' = Some c' /\
                       reply c' = reply c /\ childOk c') as Hlook.
  { intros r' c Hc. rewrite list_lookup_alter. pose proof (H3 r' c Hc) as Hok.
    destruct (decide (r = r')) as [->|_]; rewrite ?Hc; simpl; eauto. }
  split.
  - split; simpl.
    + intros id r' Hid. destruct (H1 id r' Hid) as (c & Hc & Hp).
      destruct (Hlook r' c Hc) as (c' & Hc' & Hrep & _). exists c'. by rewrite Hrep.
    + intros i due r' Hi. destruct (H2 i due r' Hi) as (c & Hc & Hp).
      destruct (Hlook r' c Hc) as (c' & Hc' & Hrep & _). exists c'. by rewrite Hrep.
    + intros r' c' Hc'. rewrite list_lookup_alter in Hc'.
      destruct (decide (r = r')) as [->|_]; [|by apply (H3 r')].
      destruct (heap st !! r') as [c|] eqn:Hc; [|done]. injection Hc' as <-.
      by destruct (Hf c eq_refl (H3 r' c Hc)) as [_ ?].
  - intros r' c Hc. destruct (Hlook r' c Hc) as (c' & Hc' & Hrep & _). eauto.
Qed.

Lemma safe_alloc (c : Child) (st : State) :
  childOk c ->
  invariant st -> safe st (withHeap (fun h => h ++ [c]) st).
Proof.
  intros Hok [H1 H2 H3].
  assert (forall r' x, heap st !! r' = Some x -> (heap st ++ [c]) !! r' = Some x) as Hlook.
  { intros r' x Hx. by apply lookup_app_l_Some. }
  split.
  - split; simpl.
    + intros id r' Hid. destruct (H1 id r' Hid) as (x & Hx & Hp). eauto.
    + intros i due r' Hi. destruct (H2 i due r' Hi) as (x & Hx & Hp). eauto.
    + intros r' x Hx. apply lookup_app_Some in Hx as [Hx|[_ Hx]]; [by apply (H3 r')|].
      apply list_lookup_singleton_Some in Hx as [_ <-]. done.
  - intros r' x Hx. eauto.
Qed.

Lemma safe_resolveStart (r : nat) (v : Response) (st : State) :
  (forall c, heap st !! r = Some c -> reply c = None ->
     match v with
     | Payload _ _ _ => True
     | Error _ _ _ => isDead (process (session c)) = true
     | Sessions _ => False
     end) ->
  invariant st -> safe st (resolveStart r v st).
Proof.
  intros Hv Hinv. unfold resolveStart.
  destruct (heap st !! r) as [c|] eqn:Hc; [|by apply safe_frame].
  destruct (reply c) eqn:Hrep; [by apply safe_frame|].
  specialize (Hv c eq_refl Hrep). destruct Hinv as [H1 H2 H3].
  assert (forall r' x, heap st !! r' = Some x ->
            exists x', alter (withReply v) r (heap st) !! r' = Some x' /\
                       (reply x <> None -> reply x' = reply x)) as Hlook.
  { intros r' x Hx. rewrite list_lookup_alter.
    destruct (decide (r = r')) as [<-|_]; rewrite ?Hx; simpl; [|eauto].
    rewrite Hc in Hx. injection Hx as <-. eexists. split; [done|]. by rewrite Hrep. }
  split.
  - split; simpl.
    + intros id r' Hid. destruct (H1 id r' Hid) as (x & Hx & Hp).
      destruct (Hlook r' x Hx) as (x' & Hx' & Hkeep). exists x'. split; [done|].
      rewrite Hkeep; [done|]. by destruct (reply x).
    + intros i due r' Hi. destruct (H2 i due r' Hi) as (x & Hx & Hp).
      destruct (Hlook r' x Hx) as (x' & Hx' & Hkeep). exists x'. split; [done|].
      by rewrite Hkeep.
    + intros r' x' Hx'. rewrite list_lookup_alter in Hx'.
      destruct (decide (r = r')) as [<-|_]; [|by apply (H3 r')].
      rewrite Hc in Hx'. injection Hx' as <-. destruct (H3 r c Hc) as (_ & Hs & Hb).
      split; [|done]. unfold replyOk. simpl. by destruct v.
  - intros r' x Hx. by apply Hlook.
Qed.

Lemma safe_refl (st : State) : invariant st -> safe st st.
Proof. by apply safe_frame. Qed.

Lemma safe_resolve (k : nat) (v : Response) (st : State) :
  invariant st -> safe st (resolve k v st).
Proof. by apply safe_frame. Qed.

Lemma replied_after (st st' : State) (r : nat) :
  extends st st' ->
  (exists c, heap st !! r = Some c /\ reply c <> None) ->
  exists c', heap st' !! r = Some c' /\ reply c' <> None.
Proof.
  intros Hext (c & Hc & Hrep). destruct (Hext r c Hc) as (c' & Hc' & Hkeep).
  exists c'. split; [done|]. by rewrite Hkeep.
Qed.

Lemma kill_child (sig : Signal) (res : KillResult) (c : Child) (p : ChildProcess)
    (err : option string) :
  kill sig res (process (session c)) = (p, err) ->
  childOk c ->
  reply (withProcess (fun _ => p) c) = reply c /\
  childOk (withProcess (fun _ => p) c).
Proof.
  intros Hkill (Hr & Hs & Hb). split; [done|]. revert Hkill. unfold kill.
  destruct c as [[q out t0 cmd dir] n rep]. simpl in *.
  destruct (exited q); [intros [= <- <-]; done|].
  destruct res; intros [= <- <-]; try done.
  split; [|split; [|done]].
  - unfold replyOk in *. simpl in *. by destruct rep as [[| |]|].
  - by intros _.
Qed.

Lemma safe_sendSignal (r : nat) (sig : Signal) (host : Host) (st : State) :
  (exists c, heap st !! r = Some c /\ reply c <> None) ->
  invariant st -> safe st (sendSignal r sig host st).
Proof.
  intros (c & Hc & Hrep) Hinv. unfold sendSignal. rewrite Hc.
  destruct (kill sig (delivered host) (process (session c))) as [p err] eqn:Hkill.
  assert (safe st (withHeap (alter (withProcess (fun _ => p)) r) st)) as Hsafe.
  { apply safe_alter; [|done]. intros c0 Hc0 Hok.
    assert (c0 = c) as -> by congruence. by eapply kill_child. }
  destruct err as [msg|]; [|done].
  eapply safe_trans; [exact Hsafe|]. apply safe_resolveStart.
  intros c' Hc' Hnone. destruct Hsafe as [_ Hext].
  destruct (Hext r c Hc) as (c'' & Hc'' & Hkeep). simpl in *.
  assert (c'' = c') as -> by congruence. rewrite Hkeep in Hnone; done.
Qed.

Lemma safe_startProcess (k : nat) (command : string) (cwd : option string)
    (host : Host) (st : State) :
  invariant st -> safe st (startProcess k command cwd host st).
Proof.
  intros Hinv. unfold startProcess.
  destruct (decide _); [by apply safe_resolve|].
  set (c := {| session := _; call := k; reply := None |}).
  eapply safe_trans.
  { apply (safe_alloc c); [|done]. split; [done|]. split; [|unfold bufferOk; simpl; lia].
    unfold signalOk. simpl. done. }
  intros Hinv1. eapply safe_trans; [|intros Hinv2; by apply safe_setTimeout].
  destruct (spawned host) as [|errno msg] eqn:Hsp; [by apply safe_refl|].
  apply safe_resolveStart; [|done]. simpl. intros c' Hc' _.
  rewrite lookup_app_r in Hc' by lia. rewrite Nat.sub_diag in Hc'.
  injection Hc' as <-. done.
Qed.

Lemma resolveStart_withSessions (r : nat) (v : Response)
    (f : gmap string nat -> gmap string nat) (st : State) :
  resolveStart r v (withSessions f st) = withSessions f (resolveStart r v st).
Proof.
  unfold resolveStart. simpl. destruct (heap st !! r) as [c|]; [|done].
  by destruct (reply c).
Qed.

Lemma resolveStart_lookup (r : nat) (v : Response) (st : State) (c : Child) :
  heap st !! r = Some c ->
  heap (resolveStart r v st) !! r
  = Some (match reply c with None => withReply v c | Some _ => c end).
Proof.
  intros Hc. unfold resolveStart. rewrite Hc. destruct (reply c); [done|].
  simpl. rewrite list_lookup_alter. destruct (decide (r = r)); [|done].
  by rewrite Hc.
Qed.

Lemma safe_startSettle (r : nat) (sessionId : string) (st : State) :
  invariant st -> safe st (startSettle r sessionId st).
Proof.
  intros Hinv. unfold startSettle.
  destruct (heap st !! r) as [c|] eqn:Hc; [|by apply safe_refl].
  destruct (isDead (process (session c))) eqn:Hdead.
  - apply safe_resolveStart; [|done]. intros c' Hc' _. congruence.
  - rewrite resolveStart_withSessions.
    eapply safe_trans; cycle 1.
    { intros Hinv'. apply safe_sessions; [|exact Hinv']. intros id r' Hid.
      apply lookup_insert_Some in Hid as [[_ <-]|[_ ?]]; [|by left].
      right. rewrite (resolveStart_lookup r _ st c Hc). eexists. split; [done|].
      destruct (inv_heap st Hinv r c Hc) as [Hr _]. unfold replyOk in Hr.
      destruct (reply c) as [[| |]|] eqn:Hrep; simpl; rewrite ?Hrep; try done.
      congruence. }
    by apply safe_resolveStart.
Qed.

Lemma safe_writeToProcess (k : nat) (sessionId input : string) (st : State) :
  invariant st -> safe st (writeToProcess k sessionId input st).
Proof.
  intros Hinv. unfold writeToProcess.
  destruct (getSession sessionId st) as [[r c]|]; [|by apply safe_resolve].
  destruct (isDead _).
  - eapply safe_trans; [|intros ?; by apply safe_resolve].
    apply safe_sessions; [|done]. intros id r' Hid.
    apply lookup_delete_Some in Hid as [_ ?]. by left.
  - eapply safe_trans; [|intros ?; by apply safe_setTimeout].
    apply safe_alter; [|done]. intros c0 _ Hok. done.
Qed.

Lemma safe_checkOutput (k r : nat) (id : string) (mark : nat) (t0 t : Z) (st : State) :
  invariant st -> safe st (checkOutput k r id mark t0 t st).
Proof.
  intros Hinv. unfold checkOutput.
  destruct (heap st !! r) as [c|]; [|by apply safe_refl].
  destruct (_ || _); [by apply safe_resolve|by apply safe_setTimeout].
Qed.

Lemma safe_readFromProcess (k : nat) (id : string) (t : option Z) (st : State) :
  invariant st -> safe st (readFromProcess k id t st).
Proof.
  intros Hinv. unfold readFromProcess.
  destruct (getSession id st) as [[r c]|]; [|by apply safe_resolve].
  by apply safe_checkOutput.
Qed.

Lemma safe_killProcess (k : nat) (sessionId : string) (host : Host) (st : State) :
  invariant st -> safe st (killProcess k sessionId host st).
Proof.
  intros Hinv. unfold killProcess.
  destruct (getSession sessionId st) as [[r c]|] eqn:Hget; [|by apply safe_resolve].
  apply getSession_Some in Hget as [Hid Hc].
  assert (exists c, heap st !! r = Some c /\ reply c <> None) as Hreplied.
  { destruct (inv_registered st Hinv _ _ Hid) as (c0 & Hc0 & Hp).
    exists c0. split; [done|]. by destruct (reply c0). }
  eapply safe_trans; [|intros ?; by apply safe_resolve].
  assert (forall st0, invariant st0 -> safe st0 (withSessions (delete sessionId) st0)) as Hdel.
  { intros st0 Hinv0. apply safe_sessions; [|done]. intros id r' Hlook.
    apply lookup_delete_Some in Hlook as [_ ?]. by left. }
  destruct (negb _ && _); [|by apply Hdel].
  eapply safe_trans; [|apply Hdel].
  pose proof (safe_sendSignal r SIGTERM host st Hreplied Hinv) as Hsig.
  eapply safe_trans; [exact Hsig|].
  intros Hinv1. apply safe_setTimeout; [|done]. intros r' [= <-].
  eapply replied_after; [|exact Hreplied]. by destruct Hsig.
Qed.

Lemma safe_killEscalate (r : nat) (host : Host) (st : State) :
  (exists c, heap st !! r = Some c /\ reply c <> None) ->
  invariant st -> safe st (killEscalate r host st).
Proof.
  intros (c & Hc & Hrep) Hinv. unfold killEscalate. rewrite Hc.
  destruct (negb _); [apply safe_sendSignal; eauto|by apply safe_refl].
Qed.

Lemma safe_cleanup (st : State) : invariant st -> safe st (cleanup st).
Proof.
  intros Hinv. apply safe_sessions; [|done]. intros id r Hid.
  apply map_lookup_filter_Some in Hid as [? _]. by left.
Qed.

Create HintDb safe.

#[local] Hint Resolve safe_refl safe_resolve safe_setTimeout safe_startProcess
  safe_startSettle safe_writeToProcess safe_checkOutput safe_readFromProcess
  safe_killProcess safe_cleanup : safe.

Ltac split_dispatch :=
  repeat match goal with
         | |- context [String.eqb ?a ?b] => destruct (String.eqb a b)
         | |- context [negb ?b] => destruct (negb b)
         | |- context [match ?o with Some _ => _ | None => _ end] => destruct o
         end.

Lemma safe_processInteractive (k : nat) (params : ProcessInteractiveParams)
    (host : Host) (st : State) :
  invariant st -> safe st (processInteractive k params host st).
Proof.
  intros Hinv. unfold processInteractive. split_dispatch; auto with safe.
  by apply safe_resolve.
Qed.

Lemma safe_runTask (t : Task) (host : Host) (st : State) :
  (forall r, t = KillEscalate r -> exists c, heap st !! r = Some c /\ reply c <> None) ->
  invariant st -> safe st (runTask t host st).
Proof.
  intros Hesc Hinv. destruct t as [r id|k r id m|k r id m|k r id m t0 t|r|]; simpl;
    auto with safe.
  - unfold writeDone. destruct (writeError host); [auto with safe|by apply safe_setTimeout].
  - unfold writeSettle. destruct (heap st !! r); auto with safe.
  - apply safe_killEscalate; [|done]. by apply Hesc.
  - eapply safe_trans; [by apply safe_cleanup|].
    intros Hinv'. by apply safe_setTimeout.
Qed.

Lemma safe_step (e : Event) (st st' : State) :
  invariant st -> step e st = Some st' -> safe st st'.
Proof.
  intros Hinv Hstep. destruct e as [params host|i host|r data|r code|r sig|dt];
    simpl in Hstep.
  - injection Hstep as <-.
    eapply safe_trans; [|intros ?; by apply safe_processInteractive].
    by apply safe_frame.
  - destruct (tasks st !! i) as [[[due t]|]|] eqn:Hi; try discriminate.
    destruct (due <=? now st); [|discriminate].
    destruct (crashes t host); [discriminate|]. injection Hstep as <-.
    eapply safe_trans; [by apply safe_clear|].
    intros Hinv'. apply safe_runTask; [|done]. intros r ->.
    by apply (inv_escalate st Hinv i due r).
  - destruct (heap st !! r); [|discriminate]. injection Hstep as <-.
    apply safe_alter; [|done]. intros c0 _ (Hr & Hs & Hb). split; [done|].
    split; [done|]. split; [done|]. unfold bufferOk. simpl.
    rewrite addOutput_drop, length_drop. lia.
  - destruct (heap st !! r) as [c|]; [|discriminate].
    destruct (exited _); [discriminate|]. injection Hstep as <-.
    apply safe_alter; [|done]. intros c0 _ (Hr & Hs & Hb). split; [done|].
    split; [|done].
    unfold replyOk, isDead in *. simpl. destruct (reply c0) as [[| |]|]; try done.
    by rewrite orb_true_r.
  - destruct (heap st !! r) as [c|] eqn:Hc; [|discriminate].
    destruct (exited _); [discriminate|]. injection Hstep as <-.
    apply safe_alter; [|done]. intros c0 Hc0 (Hr & Hs & Hb).
    split; [done|]. split; [done|]. by split.
  - destruct (0 <=? dt); [|discriminate]. injection Hstep as <-. by apply safe_frame.
Qed.

Lemma invariant_initial : invariant initial.
Proof.
  split.
  - intros id r Hid. done.
  - intros [|[|i]] due r Hi; done.
  - intros r c Hc. done.
Qed.

Lemma safe_run (events : list Event) (st st' : State) :
  invariant st -> run events st = Some st' -> safe st st'.
Proof.
  revert st. induction events as [|e rest IH]; intros st Hinv Hrun; simpl in Hrun.
  - injection Hrun as <-. by apply safe_refl.
  - destruct (step e st) as [st1|] eqn:Hstep; [|discriminate].
    eapply safe_trans; [by eapply safe_step|]. intros Hinv1. by apply IH.
Qed.

(** ** The line buffer on the machine *)

Lemma buffers_bounded (events : list Event) (st : State) (r : nat) (c : Child) :
  run events initial = Some st ->
  heap st !! r = Some c ->
  (length (output (session c)) <= 1000)%nat.
Proof.
  intros Hrun Hc. destruct (safe_run events initial st invariant_initial Hrun) as [Hinv _].
  by destruct (inv_heap st Hinv r c Hc) as (_ & _ & Hb).
Qed.

(** C5. After every append the buffer holds at most 1000 lines: it is the
    old buffer followed by the new lines, with exactly the oldest
    [length - 1000] lines removed when that is more than 1000 lines (a
    suffix, so the retained lines keep their order); its length is the
    smaller of 1000 and the appended length. [addOutput] is a total function,
    and in every state the module can reach a chunk of output for an existing
    session is taken at once: the step is defined and does nothing but run
    [addOutput] on that session's buffer, which holds at most 1000 lines
    before and after. *)
Theorem addOutput_bounded_fifo (data : string) (buffer : list string) :
  let appended := buffer ++ Js.split data in
  (length (addOutput data buffer) <= 1000)%nat /\
  length (addOutput data buffer) = Nat.min 1000 (length appended) /\
  addOutput data buffer = drop (length appended - 1000) appended /\
  take (length appended - 1000) appended ++ addOutput data buffer = appended /\
  (forall events st r c,
     run events initial = Some st ->
     heap st !! r = Some c ->
     (length (output (session c)) <= 1000)%nat /\
     step (Data r data) st
     = Some (withHeap (alter (withOutput (addOutput data)) r) st)).
Proof.
  intros appended. rewrite addOutput_drop. fold appended.
  rewrite length_drop. split; [lia|]. split; [lia|]. split; [done|].
  split; [apply take_drop|].
  intros events st r c Hrun Hc. split; [by eapply buffers_bounded|].
  simpl. by rewrite Hc.
Qed.

Lemma addOutput_bounded_fifo_witness :
  step (Data 0 "hello") Demo.running
  = Some (withHeap (alter (withOutput (addOutput "hello")) 0%nat) Demo.running).
Proof.
  destruct (addOutput_bounded_fifo "hello" []) as (_ & _ & _ & _ & H).
  edestruct (H Demo.oneSession Demo.running 0%nat) as [_ Hstep];
    [vm_compute; reflexivity | reflexivity | exact Hstep].
Defined.

(** ** Failed starts *)

(** What does hold of a failed start. (1) When the handle shows the process
    dead ([killed] set or an exit code there) at the time its settle timer
    fires, the store stays as it is and the start is answered [PROCESS_DIED]
    with the output captured so far (unless the launch itself had failed,
    which was already answered [PROCESS_ERROR]). (2) A session object whose
    start has been answered with an error is in the store neither before nor
    after, whatever happens in between. *)
Lemma start_found_dead_leaves_no_session
    (events1 events2 events3 : list Event) (st1 st2 st3 : State) :
  run events1 initial = Some st1 ->
  run events2 st1 = Some st2 ->
  run events3 st2 = Some st3 ->
  (forall i due r sessionId c host,
     tasks st1 !! i = Some (Some (due, StartSettle r sessionId)) ->
     due <= now st1 ->
     heap st1 !! r = Some c ->
     isDead (process (session c)) = true ->
     exists st' c',
       step (Fire i host) st1 = Some st' /\
       sessions st' = sessions st1 /\
       heap st' !! r = Some c' /\
       reply c' = Some (match reply c with
                        | Some v => v
                        | None => Error "PROCESS_DIED" "Process exited immediately"
                                    (Some ("output", Js.join (output (session c))))
                        end)) /\
  (forall r c v,
     heap st2 !! r = Some c -> reply c = Some v -> isError v = true ->
     forall id, sessions st1 !! id <> Some r /\ sessions st3 !! id <> Some r).
Proof.
  intros Hrun1 Hrun2 Hrun3.
  destruct (safe_run events1 initial st1 invariant_initial Hrun1) as [Hinv1 _].
  destruct (safe_run events2 st1 st2 Hinv1 Hrun2) as [Hinv2 Hext12].
  destruct (safe_run events3 st2 st3 Hinv2 Hrun3) as [Hinv3 Hext23].
  split.
  - intros i due r sessionId c host Hi Hdue Hc Hdead. unfold step. rewrite Hi.
    destruct (Z.leb_spec due (now st1)) as [_|?]; [|lia].
    cbn [crashes]. unfold runTask, startSettle.
    change (heap (withTasks <[i:=None]> st1)) with (heap st1).
    rewrite Hc, Hdead.
    eexists. eexists. split; [reflexivity|].
    split; [by rewrite resolveStart_sessions|].
    rewrite (resolveStart_lookup r _ _ c) by done. split; [reflexivity|].
    destruct (reply c) eqn:Hrep; [exact Hrep|reflexivity].
  - intros r c v Hc Hrep Herr id. split; intros Hid.
    + destruct (inv_registered st1 Hinv1 id r Hid) as (c1 & Hc1 & Hp).
      destruct (Hext12 r c1 Hc1) as (c2 & Hc2 & Hkeep).
      assert (c2 = c) as -> by congruence.
      rewrite Hkeep in Hrep; [|by destruct (reply c1)].
      rewrite Hrep in Hp. by destruct v.
    + destruct (inv_registered st3 Hinv3 id r Hid) as (c3 & Hc3 & Hp).
      destruct (Hext23 r c Hc) as (c3' & Hc3' & Hkeep).
      assert (c3' = c3) as -> by congruence.
      rewrite Hkeep, Hrep in Hp; [|congruence]. by destruct v.
Qed.

(** C7 (the code misses a case). The settle timer decides whether the
    process is dead by [child.killed || child.exitCode !== null]. A process
    that ends by a signal the tool did not send (here a shell that kills
    itself) leaves [exitCode] at [null] and [killed] unset, so although it
    has exited before the settle interval is over, the start is answered
    with success and [is_running: true] and the session is registered. The
    entry then stays: list reports it as running, and the cleanup timer,
    which uses the same test, does not collect it. *)
Theorem signal_death_is_registered :
  exists st c st',
    run Scenes.killsItself initial = Some st /\
    heap st !! 0%nat = Some c /\
    exited (process (session c)) = true /\
    signals (process (session c)) = [] /\
    replies st = [(0%nat, Payload "deadbeef" EmptyString true)] /\
    sessions st !! "deadbeef" = Some 0%nat /\
    run [Demo.listReq; Advance 300000; Demo.fire 0] st = Some st' /\
    sessions st' !! "deadbeef" = Some 0%nat /\
    last (replies st')
    = Some (1%nat, Sessions [{| info_session_id := "deadbeef";
                                info_command := "kill -9 $$";
                                info_started := 0; info_is_running := true;
                                info_output_lines := 0 |}]).
Proof.
  eexists. eexists. eexists. split; [vm_compute; reflexivity|].
  split; [reflexivity|]. split; [reflexivity|]. split; [reflexivity|].
  split; [reflexivity|]. split; [reflexivity|].
  split; [vm_compute; reflexivity|]. split; reflexivity.
Qed.

(** ** Kill and its escalation timer *)

Lemma kill_delivered (sig : Signal) (p : ChildProcess) :
  exited p = false ->
  killed (kill sig Delivered p).1 = true /\
  signals (kill sig Delivered p).1 = signals p ++ [sig].
Proof. intros Halive. unfold kill. by rewrite Halive. Qed.

Lemma killEscalate_after_delivery (r : nat) (host : Host) (st : State) (c : Child) :
  heap st !! r = Some c ->
  killed (process (session c)) = true ->
  killEscalate r host st = st.
Proof. intros Hc Hkilled. unfold killEscalate. by rewrite Hc, Hkilled. Qed.

(** C6 (the code at the failing input). A session runs a process that does
    not end on SIGTERM. [kill] sends SIGTERM, which is delivered, and the
    session leaves the store. One second later the process has still not
    exited; the escalation timer fires, finds [killed] set by the delivered
    SIGTERM, and sends nothing: SIGTERM is the only signal the process ever
    gets, and no timer is left that could send another. *)
Theorem escalation_skipped_after_sigterm :
  exists st c,
    run Demo.stubborn initial = Some st /\
    heap st !! 0%nat = Some c /\
    exited (process (session c)) = false /\
    killed (process (session c)) = true /\
    signals (process (session c)) = [SIGTERM] /\
    sessions st = ∅ /\
    tasks st = [Some (CLEANUP_INTERVAL_MS, Cleanup); None; None] /\
    now st = 1500.
Proof.
  eexists. eexists. split; [vm_compute; reflexivity|].
  split; [reflexivity|]. repeat split.
Qed.

(** ** Reading from a full buffer *)

Lemma full_buffer_hides_new_output (data : string) (output : list string) :
  length output = 1000%nat ->
  length (addOutput data output) = 1000%nat /\
  Js.slice (Z.of_nat (length output)) (addOutput data output) = [].
Proof.
  intros Hfull.
  assert (length (addOutput data output) = 1000%nat) as Hlen.
  { rewrite addOutput_drop, length_drop, length_app. lia. }
  split; [done|]. rewrite slice_nonneg. apply drop_ge. lia.
Qed.

(** C4 (the code at the failing input). The buffer of a session holds 1000
    lines when a read with the default timeout takes its mark. A new line of
    output arrives right after. The read does not return it: all fifty polls
    find nothing after the mark, and the read answers with empty output when
    5000 ms have passed, although the new line is in the buffer. *)
Theorem read_misses_output_on_full_buffer :
  exists st c,
    run Demo.fullBuffer initial = Some st /\
    last (replies st) = Some (1%nat, Payload "deadbeef" EmptyString true) /\
    heap st !! 0%nat = Some c /\
    length (output (session c)) = 1000%nat /\
    last (output (session c)) = Some "ready on http://localhost:3000" /\
    now st = 500 + 5000.
Proof.
  eexists. eexists. split; [vm_compute; reflexivity|].
  split; [reflexivity|]. split; [reflexivity|]. split; [reflexivity|].
  split; reflexivity.
Qed.

(** ** The buffer after a sequence of chunks *)

Lemma feed_drop (chunks : list string) (output : list string) :
  exists k,
    feed chunks output = drop k (output ++ lines chunks) /\
    ((length output + length (lines chunks) <= 1000)%nat -> k = 0%nat).
Proof.
  revert output. induction chunks as [|data rest IH]; intros output; simpl.
  - exists 0%nat. by rewrite app_nil_r.
  - destruct (IH (addOutput data output)) as (k & Hfeed & Hzero).
    rewrite Hfeed. clear Hfeed. rewrite addOutput_drop in *.
    set (k1 := (length (output ++ Js.split data) - 1000)%nat) in *.
    exists (k1 + k)%nat. split.
    + unfold lines. simpl. rewrite (assoc_L (++)).
      rewrite <- drop_app_le by lia. by rewrite drop_drop.
    + intros Hsmall. unfold lines in Hsmall. simpl in Hsmall.
      rewrite length_app in Hsmall.
      assert (k1 = 0%nat) as Hk1 by (unfold k1; rewrite length_app; lia).
      rewrite Hk1 in *. rewrite Hzero; [done|].
      rewrite drop_0, length_app. unfold lines. lia.
Qed.

Lemma delta_suffix (during : list string) (output : list string) :
  exists k,
    Js.slice (Z.of_nat (length output)) (feed during output) = drop k (lines during) /\
    ((length output + length (lines during) <= 1000)%nat -> k = 0%nat).
Proof.
  destruct (feed_drop during output) as (k & -> & Hzero). exists k. split; [|done].
  rewrite slice_nonneg, drop_drop, Nat.add_comm. by rewrite drop_app_add.
Qed.


(** ** Kill *)

Lemma registered_replied (events : list Event) (st : State) (id : string) (r : nat)
    (c : Child) :
  run events initial = Some st ->
  getSession id st = Some (r, c) ->
  reply c <> None.
Proof.
  intros Hrun Hget. apply getSession_Some in Hget as [Hid Hc].
  destruct (safe_run events initial st invariant_initial Hrun) as [Hinv _].
  destruct (inv_registered st Hinv id r Hid) as (c' & Hc' & Hp).
  assert (c' = c) as -> by congruence. by destruct (reply c).
Qed.

Lemma sendSignal_replied (r : nat) (sig : Signal) (host : Host) (st : State) (c : Child) :
  heap st !! r = Some c ->
  reply c <> None ->
  sendSignal r sig host st
  = withHeap (alter (withProcess (fun _ => (kill sig (delivered host) (process (session c))).1)) r) st.
Proof.
  intros Hc Hrep. unfold sendSignal. rewrite Hc.
  destruct (kill sig (delivered host) (process (session c))) as [p [msg|]]; [|done].
  unfold resolveStart. simpl. rewrite list_lookup_alter.
  destruct (decide (r = r)); [|done]. rewrite Hc. simpl.
  by destruct (reply c).
Qed.



(** X2. A kill reaches the process at most once and only while the handle
    shows it alive: when [killed] is set or an exit code is there, no signal
    is sent and no timer is armed; otherwise SIGTERM is tried once (it is
    recorded when the host delivers it, and nothing is delivered to a process
    that has already ended by a signal from elsewhere) and one escalation
    timer is armed, due 1000 ms later. Nothing is ever written to the process
    by a kill. *)
Theorem kill_signals_once (events : list Event) (st : State) (k : nat)
    (id : string) (host : Host) (r : nat) (c : Child) :
  run events initial = Some st ->
  getSession id st = Some (r, c) ->
  let st' := killProcess k id host st in
  let p := process (session c) in
  exists c',
    heap st' !! r = Some c' /\
    written (process (session c')) = written p /\
    output (session c') = output (session c) /\
    (isDead p = true ->
       heap st' = heap st /\ tasks st' = tasks st) /\
    (isDead p = false ->
       tasks st' = tasks st ++ [Some (now st + 1000, KillEscalate r)] /\
       signals (process (session c'))
       = signals p ++ if exited p then []
                      else match delivered host with Delivered => [SIGTERM] | _ => [] end).
Proof.
  intros Hrun Hget st' p.
  pose proof (registered_replied events st id r c Hrun Hget) as Hrep.
  pose proof Hget as Hget'. apply getSession_Some in Hget' as [Hid Hc].
  unfold st', killProcess. rewrite Hget. fold p.
  destruct (isDead p) eqn:Hdead.
  - assert (negb (killed p) && isNull (exitCode p) = false) as ->.
    { unfold isDead in Hdead. destruct (killed p), (exitCode p); done. }
    exists c. simpl. repeat split; done.
  - assert (negb (killed p) && isNull (exitCode p) = true) as ->.
    { unfold isDead in Hdead. destruct (killed p), (exitCode p); done. }
    rewrite (sendSignal_replied r SIGTERM host st c Hc Hrep). simpl.
    rewrite list_lookup_alter. destruct (decide (r = r)); [|done]. rewrite Hc. simpl.
    eexists. split; [reflexivity|]. fold p.
    assert (exited p = false \/ exited p = true) as [Hex|Hex] by (destruct (exited p); auto);
      unfold kill; rewrite Hex; simpl.
    + destruct (delivered host); simpl; repeat split; rewrite ?app_nil_r; done.
    + repeat split; try done. by rewrite app_nil_r.
Qed.

Lemma kill_signals_once_witness :
  exists c',
    heap (killProcess 1 "deadbeef" (Demo.host Byte.x00) Demo.running) !! 0%nat = Some c' /\
    signals (process (session c')) = [SIGTERM].
Proof.
  edestruct (kill_signals_once Demo.oneSession Demo.running 1 "deadbeef"
               (Demo.host Byte.x00)) as (c' & Hc' & _ & _ & _ & Hlive);
    [vm_compute; reflexivity | vm_compute; reflexivity |].
  exists c'. split; [exact Hc'|]. apply Hlive. reflexivity.
Defined.

(** X3. With the store at its limit a start is refused, and the kill of any
    registered session makes room: the next start passes the limit check,
    launches its process and arms its settle timer. *)
Theorem kill_frees_a_slot (st : State) (k k' : nat) (id command : string)
    (cwd : option string) (host host' : Host) (r : nat) (c : Child) :
  size (sessions st) = MAX_SESSIONS ->
  getSession id st = Some (r, c) ->
  let st1 := killProcess k id host st in
  replies (startProcess k' command cwd host' st) =
    replies st ++ [(k', Error "LIMIT_EXCEEDED"
                          "Maximum 10 sessions allowed. Kill some first." None)] /\
  heap (startProcess k' command cwd host' st) = heap st /\
  size (sessions st1) = 9%nat /\
  length (heap (startProcess k' command cwd host' st1)) = S (length (heap st1)) /\
  last (tasks (startProcess k' command cwd host' st1))
  = Some (Some (now st1 + 500, StartSettle (length (heap st1)) (generateSessionId host'))).
Proof.
  intros Hfull Hget st1. split; [|split].
  - rewrite startProcess_at_capacity; [done|]. by rewrite Hfull.
  - rewrite startProcess_at_capacity; [done|]. by rewrite Hfull.
  - assert (size (sessions st1) = 9%nat) as Hsize.
    { unfold st1, killProcess. rewrite Hget. simpl.
      assert (forall st0, sessions st0 = sessions st ->
                size (delete id (sessions st0)) = 9%nat) as Hdel.
      { intros st0 ->. rewrite map_size_delete_Some; [by rewrite Hfull|].
        apply getSession_Some in Hget as [-> _]. by eexists. }
      destruct (negb _ && _); apply Hdel; [|done].
      simpl. apply sendSignal_sessions. }
    split; [done|].
    destruct (startProcess_schedules k' command cwd host' st1) as [Htasks _].
    { rewrite Hsize. unfold MAX_SESSIONS. lia. }
    split; [|by rewrite Htasks, last_snoc].
    unfold startProcess. rewrite decide_False by (rewrite Hsize; unfold MAX_SESSIONS; lia).
    destruct (spawned host'); simpl; [by rewrite length_app; simpl; lia|].
    unfold resolveStart. simpl. rewrite lookup_app_r by lia. rewrite Nat.sub_diag. simpl.
    rewrite length_alter, length_app. simpl. lia.
Qed.

Lemma kill_frees_a_slot_witness :
  size (sessions (killProcess 10 "deadbe03" (Demo.host Byte.x00) Scenes.full)) = 9%nat /\
  last (tasks (startProcess 11 "node" None (Demo.host Byte.xaa)
                 (killProcess 10 "deadbe03" (Demo.host Byte.x00) Scenes.full)))
  = Some (Some (1000, StartSettle 10 "deadbeaa")).
Proof.
  edestruct (kill_frees_a_slot Scenes.full 10 11 "deadbe03" "node" None
               (Demo.host Byte.x00) (Demo.host Byte.xaa)) as (_ & _ & H1 & _ & H2);
    [reflexivity | vm_compute; reflexivity |].
  split; [exact H1 | exact H2].
Defined.

(** ** What the operations add to the pending callbacks *)

Lemma calm_refl (st : State) : calm st st.
Proof. split; [|done]. exists []. by rewrite app_nil_r. Qed.

Lemma calm_trans (a b c : State) : calm a b -> calm b c -> calm a c.
Proof.
  intros [(l1 & Ht1 & Hl1) Hs1] [(l2 & Ht2 & Hl2) Hs2]. split; [|lia].
  exists (l1 ++ l2). rewrite Ht2, Ht1, (assoc_L (++)). split; [done|].
  by apply Forall_app.
Qed.

Lemma calm_frame (st st' : State) :
  tasks st' = tasks st -> sessions st' = sessions st -> calm st st'.
Proof. intros Ht Hs. split; [|by rewrite Hs]. exists []. by rewrite app_nil_r. Qed.

Lemma calm_setTimeout (t : Task) (ms : Z) (st : State) :
  (forall r id, t <> StartSettle r id) -> calm st (setTimeout t ms st).
Proof.
  intros Ht. split; [|done]. eexists. split; [done|].
  constructor; [|done]. destruct t; try done. by destruct (Ht r sessionId).
Qed.

Lemma calm_sessions (f : gmap string nat -> gmap string nat) (st : State) :
  (size (f (sessions st)) <= size (sessions st))%nat -> calm st (withSessions f st).
Proof. intros Hf. split; [|done]. exists []. by rewrite app_nil_r. Qed.

Lemma calm_delete (id : string) (st : State) : calm st (withSessions (delete id) st).
Proof.
  apply calm_sessions. rewrite map_size_delete. destruct (sessions st !! id); simpl; lia.
Qed.

Lemma calm_resolveStart (r : nat) (v : Response) (st : State) :
  calm st (resolveStart r v st).
Proof. apply calm_frame; [apply resolveStart_tasks|apply resolveStart_sessions]. Qed.

Lemma sendSignal_tasks (r : nat) (sig : Signal) (host : Host) (st : State) :
  tasks (sendSignal r sig host st) = tasks st.
Proof.
  unfold sendSignal. destruct (heap st !! r) as [c|]; [|done].
  destruct (kill sig (delivered host) (process (session c))) as [p [msg|]]; [|done].
  by rewrite resolveStart_tasks.
Qed.

Lemma calm_sendSignal (r : nat) (sig : Signal) (host : Host) (st : State) :
  calm st (sendSignal r sig host st).
Proof. apply calm_frame; [apply sendSignal_tasks|apply sendSignal_sessions]. Qed.

Lemma calm_writeToProcess (k : nat) (id input : string) (st : State) :
  calm st (writeToProcess k id input st).
Proof.
  unfold writeToProcess. destruct (getSession id st) as [[r c]|]; [|by apply calm_frame].
  destruct (isDead _).
  - eapply calm_trans; [apply calm_delete|]. by apply calm_frame.
  - eapply calm_trans; [|by apply calm_setTimeout]. by apply calm_frame.
Qed.

Lemma calm_checkOutput (k r : nat) (id : string) (mark : nat) (t0 t : Z) (st : State) :
  calm st (checkOutput k r id mark t0 t st).
Proof.
  unfold checkOutput. destruct (heap st !! r); [|apply calm_refl].
  destruct (_ || _); [by apply calm_frame|by apply calm_setTimeout].
Qed.

Lemma calm_readFromProcess (k : nat) (id : string) (t : option Z) (st : State) :
  calm st (readFromProcess k id t st).
Proof.
  unfold readFromProcess. destruct (getSession id st) as [[r c]|]; [|by apply calm_frame].
  apply calm_checkOutput.
Qed.

Lemma calm_killProcess (k : nat) (id : string) (host : Host) (st : State) :
  calm st (killProcess k id host st).
Proof.
  unfold killProcess. destruct (getSession id st) as [[r c]|]; [|by apply calm_frame].
  eapply calm_trans; [|by apply calm_frame].
  eapply calm_trans; [|apply calm_delete].
  destruct (negb _ && _); [|apply calm_refl].
  eapply calm_trans; [apply calm_sendSignal|]. by apply calm_setTimeout.
Qed.

Lemma calm_cleanup (st : State) : calm st (cleanup st).
Proof. apply calm_sessions. apply map_size_filter. Qed.

Lemma calm_startSettle_tasks (r : nat) (id : string) (st : State) :
  tasks (startSettle r id st) = tasks st /\
  (size (sessions (startSettle r id st)) <= S (size (sessions st)))%nat.
Proof.
  unfold startSettle. destruct (heap st !! r) as [c|]; [|split; [done|lia]].
  destruct (isDead _); rewrite resolveStart_tasks, resolveStart_sessions;
    (split; [done|]); simpl.
  - apply Nat.le_succ_diag_r.
  - rewrite map_size_insert. destruct (sessions st !! id); [apply Nat.le_succ_diag_r|done].
Qed.

Lemma calm_runTask (t : Task) (host : Host) (st : State) :
  (forall r id, t <> StartSettle r id) -> calm st (runTask t host st).
Proof.
  intros Ht. destruct t as [r id|k r id m|k r id m|k r id m t0 t|r|]; simpl.
  - by destruct (Ht r id).
  - unfold writeDone. destruct (writeError host);
      [by apply calm_frame|by apply calm_setTimeout].
  - unfold writeSettle. destruct (heap st !! r); [by apply calm_frame|apply calm_refl].
  - apply calm_checkOutput.
  - unfold killEscalate. destruct (heap st !! r); [|apply calm_refl].
    destruct (negb _); [apply calm_sendSignal|apply calm_refl].
  - eapply calm_trans; [apply calm_cleanup|]. by apply calm_setTimeout.
Qed.

Lemma calm_request (k : nat) (params : ProcessInteractiveParams) (host : Host)
    (st : State) :
  String.eqb (action params) "start" = false ->
  calm st (processInteractive k params host st).
Proof.
  intros Hact. unfold processInteractive. rewrite Hact.
  split_dispatch;
    auto using calm_refl, calm_writeToProcess, calm_readFromProcess, calm_killProcess;
    by apply calm_frame.
Qed.

Lemma calm_startProcess_full (k : nat) (command : string) (cwd : option string)
    (host : Host) (st : State) :
  (MAX_SESSIONS <= size (sessions st))%nat ->
  calm st (startProcess k command cwd host st).
Proof. intros Hfull. rewrite startProcess_at_capacity by done. by apply calm_frame. Qed.

Lemma pending_clear (ts : list (option (Z * Task))) (i : nat) (x : option (Z * Task)) :
  ts !! i = Some x ->
  length (List.filter isStartSettle (<[i:=None]> ts))
  = (length (List.filter isStartSettle ts) - (if isStartSettle x then 1 else 0))%nat /\
  (isStartSettle x = true -> (1 <= length (List.filter isStartSettle ts))%nat).
Proof.
  revert i. induction ts as [|y ts IH]; intros [|i] Hi; simpl in *; try done.
  - injection Hi as ->. destruct (isStartSettle x); simpl; split; lia.
  - destruct (IH i Hi) as [Hlen Hone]. destruct (isStartSettle y); simpl.
    + split; [|lia]. rewrite Hlen. destruct (isStartSettle x); [|lia].
      specialize (Hone eq_refl). lia.
    + done.
Qed.

Lemma pending_calm (st st' : State) :
  calm st st' ->
  pendingStarts st' = pendingStarts st /\ (size (sessions st') <= size (sessions st))%nat.
Proof.
  intros [(added & Ht & Hadded) Hs]. split; [|done].
  unfold pendingStarts. rewrite Ht, List.filter_app, length_app.
  assert (List.filter isStartSettle added = []) as ->; [|simpl; lia].
  clear Ht. induction Hadded as [|t l Ht' Hl IH]; simpl; [done|]. by rewrite Ht'.
Qed.

Lemma bound_step (e : Event) (st st' : State) :
  step e st = Some st' ->
  (isStartRequest e = true -> pendingStarts st = 0%nat) ->
  (size (sessions st) + pendingStarts st <= MAX_SESSIONS)%nat ->
  (size (sessions st') + pendingStarts st' <= MAX_SESSIONS)%nat.
Proof.
  intros Hstep Hapart Hbound.
  assert (forall st0, calm st st0 ->
            (size (sessions st0) + pendingStarts st0 <= MAX_SESSIONS)%nat) as Hcalm.
  { intros st0 H0. destruct (pending_calm st st0 H0). lia. }
  destruct e as [params host|i host|r data|r code|r sig|dt]; simpl in Hstep.
  - injection Hstep as <-. simpl in Hapart.
    set (st0 := withCalls (S (calls st)) st).
    destruct (String.eqb (action params) "start") eqn:Hact;
      [|by apply Hcalm, (calm_request (calls st) params host st0)].
    unfold processInteractive. rewrite Hact.
    destruct (negb _); [by apply Hcalm, (calm_frame st)|].
    destruct (decide (MAX_SESSIONS <= size (sessions st0))%nat) as [Hfull|Hroom].
    { by apply Hcalm, (calm_startProcess_full _ _ _ _ st0). }
    match goal with |- context [startProcess ?k ?c ?d ?h st0] =>
      destruct (startProcess_schedules k c d h st0) as [Ht Hs]; [lia|] end.
    unfold pendingStarts. rewrite Ht, Hs, List.filter_app, length_app. simpl.
    specialize (Hapart eq_refl). unfold pendingStarts in Hapart. simpl in *.
    rewrite Hapart. lia.
  - destruct (tasks st !! i) as [[[due t]|]|] eqn:Hi; try discriminate.
    destruct (due <=? now st); [|discriminate].
    destruct (crashes t host); [discriminate|]. injection Hstep as <-.
    destruct (pending_clear (tasks st) i _ Hi) as [Hclear Hone].
    set (st0 := withTasks <[i:=None]> st).
    assert (pendingStarts st0
            = (pendingStarts st - (if isStartSettle (Some (due, t)) then 1 else 0))%nat)
      as Hp0 by exact Hclear.
    assert (isStartSettle (Some (due, t)) = true -> (1 <= pendingStarts st)%nat)
      as Hone' by exact Hone.
    clear Hclear Hone.
    destruct t as [r id|k r id m|k r id m|k r id m t0 t|r|];
      cbn [isStartSettle] in Hp0, Hone';
      try (match goal with
           | |- context [runTask ?t host st0] =>
               destruct (pending_calm st0 (runTask t host st0)) as [Hp Hs];
               [apply calm_runTask; intros; discriminate|]
           end;
           change (sessions st0) with (sessions st) in Hs; rewrite Hp, Hp0; lia).
    destruct (calm_startSettle_tasks r id st0) as [Ht Hs].
    change (sessions st0) with (sessions st) in Hs.
    assert (pendingStarts (runTask (StartSettle r id) host st0) = pendingStarts st0) as ->.
    { unfold pendingStarts. cbn [runTask]. by rewrite Ht. }
    cbn [runTask]. specialize (Hone' eq_refl). lia.
  - destruct (heap st !! r); [|discriminate]. injection Hstep as <-. done.
  - destruct (heap st !! r) as [c|]; [|discriminate].
    destruct (exited _); [discriminate|]. injection Hstep as <-. done.
  - destruct (heap st !! r) as [c|]; [|discriminate].
    destruct (exited _); [discriminate|].
    injection Hstep as <-. done.
  - destruct (0 <=? dt); [|discriminate]. injection Hstep as <-. done.
Qed.

Lemma bound_run (events : list Event) (st st' : State) :
  run events st = Some st' ->
  startsApart events st = true ->
  (size (sessions st) + pendingStarts st <= MAX_SESSIONS)%nat ->
  (size (sessions st') + pendingStarts st' <= MAX_SESSIONS)%nat.
Proof.
  revert st. induction events as [|e rest IH]; intros st Hrun Hapart Hbound;
    simpl in *.
  - by injection Hrun as <-.
  - destruct (step e st) as [st1|] eqn:Hstep; [|discriminate].
    apply andb_true_iff in Hapart as [Hnow Hrest].
    apply (IH st1); [done|done|]. apply (bound_step e st); [done| |done].
    intros Hstart. rewrite Hstart in Hnow. simpl in Hnow. by apply Nat.eqb_eq.
Qed.

(** X4. When every start request arrives while no earlier start is still
    in its settle interval, the store never holds more than 10 sessions,
    whatever else happens in between: the sessions in the store and the starts
    waiting to register are at most 10 together. *)
Theorem starts_apart_keep_limit (events : list Event) (st : State) :
  run events initial = Some st ->
  startsApart events initial = true ->
  (size (sessions st) <= MAX_SESSIONS)%nat /\
  (size (sessions st) + pendingStarts st <= MAX_SESSIONS)%nat.
Proof.
  intros Hrun Hapart.
  assert (size (sessions st) + pendingStarts st <= MAX_SESSIONS)%nat as Hbound.
  { apply (bound_run events initial); [done|done|]. vm_compute. lia. }
  split; [lia|done].
Qed.

Lemma starts_apart_keep_limit_witness :
  exists st, run Scenes.oneByOne initial = Some st /\
             (size (sessions st) <= MAX_SESSIONS)%nat.
Proof.
  destruct (run Scenes.oneByOne initial) as [st|] eqn:Hrun;
    [|vm_compute in Hrun; discriminate].
  exists st. split; [reflexivity|].
  destruct (starts_apart_keep_limit Scenes.oneByOne st Hrun) as [H _];
    [vm_compute; reflexivity | exact H].
Defined.

(** ** The cleanup timer *)

Lemma tasks_grow_request (k : nat) (params : ProcessInteractiveParams) (host : Host)
    (st : State) :
  exists added, tasks (processInteractive k params host st) = tasks st ++ added.
Proof.
  destruct (String.eqb (action params) "start") eqn:Hact.
  - unfold processInteractive. rewrite Hact.
    destruct (negb _); [exists []; by rewrite app_nil_r|].
    destruct (decide (MAX_SESSIONS <= size (sessions st))%nat) as [Hfull|Hroom].
    + rewrite startProcess_at_capacity by done. exists []. by rewrite app_nil_r.
    + match goal with |- context [startProcess ?k ?c ?d ?h st] =>
        destruct (startProcess_schedules k c d h st) as [Ht _]; [lia|] end.
      eauto.
  - destruct (calm_request k params host st Hact) as [(added & Ht & _) _]. eauto.
Qed.

Lemma tasks_grow_runTask (t : Task) (host : Host) (st : State) :
  exists added, tasks (runTask t host st) = tasks st ++ added /\
                (t = Cleanup -> exists due, last added = Some (Some (due, Cleanup))).
Proof.
  destruct t as [r id|k r id m|k r id m|k r id m t0 t1|r|]; cycle 5.
  { simpl. eexists. split; [reflexivity|]. intros _. eexists. reflexivity. }
  { exists []. destruct (calm_startSettle_tasks r id st) as [Htasks _].
    simpl. rewrite Htasks, app_nil_r. split; [done|intros; discriminate]. }
  all: match goal with
       | |- context [runTask ?t ?h ?s] =>
           destruct (calm_runTask t h s) as [(added & Htasks & _) _];
           [intros; discriminate|]
       end;
       exists added; split; [exact Htasks|intros; discriminate].
Qed.

Lemma armed_grow (st st' : State) (added : list (option (Z * Task))) :
  tasks st' = tasks st ++ added -> armed st -> armed st'.
Proof.
  intros Ht (i & due & Hi). exists i, due. rewrite Ht. by apply lookup_app_l_Some.
Qed.

Lemma armed_step (e : Event) (st st' : State) :
  armed st -> step e st = Some st' -> armed st'.
Proof.
  intros Harmed Hstep. destruct e as [params host|i host|r data|r code|r sig|dt];
    simpl in Hstep.
  - injection Hstep as <-.
    destruct (tasks_grow_request (calls st) params host (withCalls (S (calls st)) st))
      as [added Ht].
    by eapply armed_grow.
  - destruct (tasks st !! i) as [[[due t]|]|] eqn:Hi; try discriminate.
    destruct (due <=? now st); [|discriminate].
    destruct (crashes t host); [discriminate|]. injection Hstep as <-.
    destruct (tasks_grow_runTask t host (withTasks <[i:=None]> st))
      as (added & Ht & Hcleanup).
    destruct Harmed as (j & due' & Hj). destruct (decide (i = j)) as [->|Hne].
    + assert (t = Cleanup) as -> by congruence.
      destruct (Hcleanup eq_refl) as [due'' Hlast].
      apply last_Some in Hlast as [front ->].
      exists (length (tasks (withTasks <[j:=None]> st) ++ front)), due''.
      rewrite Ht, (assoc_L (++)). by rewrite list_lookup_middle.
    + eapply armed_grow; [exact Ht|]. exists j, due'. simpl.
      by rewrite list_lookup_insert_ne.
  - destruct (heap st !! r); [|discriminate]. by injection Hstep as <-.
  - destruct (heap st !! r) as [c|]; [|discriminate].
    destruct (exited _); [discriminate|]. by injection Hstep as <-.
  - destruct (heap st !! r) as [c|]; [|discriminate].
    destruct (exited _); [discriminate|].
    by injection Hstep as <-.
  - destruct (0 <=? dt); [|discriminate]. by injection Hstep as <-.
Qed.

(** X5. The cleanup of dead sessions keeps running: in every state the
    module can reach, a cleanup timer is pending. No request, timer or
    process event ever disarms it, and each time it fires it arms the next
    one. *)
Theorem cleanup_stays_armed (events : list Event) (st : State) :
  run events initial = Some st -> armed st.
Proof.
  assert (forall st0, armed st0 -> run events st0 = Some st -> armed st) as Hgen.
  { induction events as [|e rest IH]; intros st0 H0 Hrun; simpl in Hrun.
    - by injection Hrun as <-.
    - destruct (step e st0) as [st1|] eqn:Hstep; [|discriminate].
      apply (IH st1); [|done]. by apply (armed_step e st0). }
  apply Hgen. exists 0%nat, CLEANUP_INTERVAL_MS. reflexivity.
Qed.

Lemma cleanup_stays_armed_witness :
  armed Demo.running.
Proof.
  apply (cleanup_stays_armed Demo.oneSession). vm_compute. reflexivity.
Defined.

(** X6. The cleanup keeps exactly the sessions whose process is not dead
    ([killed] unset and no exit code) and deletes all the others; it touches
    no session object, no pending callback and no reply; running it twice is
    the same as running it once. *)
Theorem cleanup_keeps_exactly_live (st : State) :
  (forall id r,
     sessions (cleanup st) !! id = Some r <->
     sessions st !! id = Some r /\ refDead st r = false) /\
  heap (cleanup st) = heap st /\
  tasks (cleanup st) = tasks st /\
  replies (cleanup st) = replies st /\
  cleanup (cleanup st) = cleanup st /\
  (size (sessions (cleanup st)) <= size (sessions st))%nat.
Proof.
  assert (forall id r,
     sessions (cleanup st) !! id = Some r <->
     sessions st !! id = Some r /\ refDead st r = false) as Hlook.
  { intros id r. unfold cleanup. simpl. by rewrite map_lookup_filter_Some. }
  split; [done|]. split; [done|]. split; [done|]. split; [done|]. split.
  - assert (sessions (cleanup (cleanup st)) = sessions (cleanup st)) as Hs.
    { apply map_eq. intros id. apply option_eq. intros r.
      unfold cleanup at 1. simpl. rewrite map_lookup_filter_Some. simpl.
      change (refDead (cleanup st) r) with (refDead st r).
      rewrite Hlook. tauto. }
    unfold cleanup, withSessions in *. simpl in *. f_equal. exact Hs.
  - apply map_size_filter.
Qed.

(** ** The listing *)

Lemma listing_entries (st : State) (entries : list (string * nat)) :
  invariant st ->
  Forall (fun p => sessions st !! p.1 = Some p.2) entries ->
  let sessionList :=
    omap (fun '(id, r) =>
            c ← heap st !! r;
            Some {| info_session_id := id;
                    info_command := command (session c);
                    info_started := started (session c);
                    info_is_running := isRunning (process (session c));
                    info_output_lines := length (output (session c)) |})
         entries in
  map info_session_id sessionList = entries.*1 /\
  Forall (fun info =>
            exists r c,
              sessions st !! info_session_id info = Some r /\
              heap st !! r = Some c /\
              info_command info = command (session c) /\
              info_started info = started (session c) /\
              info_is_running info = isRunning (process (session c)) /\
              info_output_lines info = length (output (session c)) /\
              (info_output_lines info <= 1000)%nat) sessionList.
Proof.
  intros Hinv Hentries. induction Hentries as [|[id r] rest Hid _ IH]; simpl.
  { split; [done|constructor]. }
  simpl in Hid. destruct (inv_registered st Hinv id r Hid) as (c & Hc & _).
  rewrite Hc. simpl. destruct IH as [IH1 IH2]. split; [by f_equal|].
  constructor; [|done]. exists r, c. simpl.
  destruct (inv_heap st Hinv r c Hc) as (_ & _ & Hb). repeat split; done.
Qed.

(** X7. In every state the module can reach, list answers with exactly one
    entry per registered session: the ids listed are the keys of the store,
    each entry shows the command and start time recorded at start, the
    running state as the handle shows it now and the current number of
    buffered lines (at most 1000). Listing changes nothing in the store, the
    sessions or the pending callbacks. *)
Theorem listSessions_lists_every_session (events : list Event) (st : State) (k : nat) :
  run events initial = Some st ->
  exists sessionList,
    listSessions k st = resolve k (Sessions sessionList) st /\
    length sessionList = size (sessions st) /\
    map info_session_id sessionList = (map_to_list (sessions st)).*1 /\
    Forall (fun info =>
              exists r c,
                sessions st !! info_session_id info = Some r /\
                heap st !! r = Some c /\
                info_command info = command (session c) /\
                info_started info = started (session c) /\
                info_is_running info = isRunning (process (session c)) /\
                info_output_lines info = length (output (session c)) /\
                (info_output_lines info <= 1000)%nat) sessionList.
Proof.
  intros Hrun.
  destruct (safe_run events initial st invariant_initial Hrun) as [Hinv _].
  destruct (listing_entries st (map_to_list (sessions st)) Hinv) as [Hids Hall].
  { apply Forall_forall. intros [id r] Hin. by apply elem_of_map_to_list in Hin. }
  eexists. split; [reflexivity|]. split; [|split; [exact Hids|exact Hall]].
  rewrite <- (length_map info_session_id), Hids, length_fmap.
  apply length_map_to_list.
Qed.

Lemma listSessions_lists_every_session_witness :
  exists sessionList,
    listSessions 10 Scenes.full = resolve 10 (Sessions sessionList) Scenes.full /\
    length sessionList = 10%nat.
Proof.
  destruct (listSessions_lists_every_session Scenes.tenStarts Scenes.full 10)
    as (l & Hl & Hlen & _); [vm_compute; reflexivity|].
  exists l. split; [exact Hl|exact Hlen].
Defined.

(** ** Reads that answer at once, and writes to a dead process *)

Lemma slice_all {A} (arr : list A) : Js.slice (Z.of_nat (length arr)) arr = [].
Proof. rewrite slice_nonneg. by apply drop_all. Qed.





(** ** Requests that name no operation or lack a field *)

(** X10. A request whose action is none of start, write, read, kill and
    list is answered [INVALID_PARAMS] with the message [Unknown action: ]
    followed by the action, and a start without a command, or a write, read or
    kill without a session id, is answered [INVALID_PARAMS] too; in each case
    the store, the sessions and the pending callbacks are untouched, whatever
    the other fields hold. *)
Theorem invalid_requests_change_nothing (k : nat) (host : Host) (st : State)
    (params : ProcessInteractiveParams) :
  let st' := processInteractive k params host st in
  (action params <> "start" -> action params <> "write" -> action params <> "read" ->
   action params <> "kill" -> action params <> "list" ->
   st' = resolve k (Error "INVALID_PARAMS" ("Unknown action: " +:+ action params) None) st) /\
  (action params = "start" -> p_command params = None ->
   st' = resolve k (Error "INVALID_PARAMS" "Command required for start action" None) st) /\
  (p_session_id params = None ->
   (action params = "write" ->
    st' = resolve k (Error "INVALID_PARAMS" "session_id required for write action" None) st) /\
   (action params = "read" ->
    st' = resolve k (Error "INVALID_PARAMS" "session_id required for read action" None) st) /\
   (action params = "kill" ->
    st' = resolve k (Error "INVALID_PARAMS" "session_id required for kill action" None) st)).
Proof.
  intros st'. unfold st', processInteractive. split; [|split].
  - intros H1 H2 H3 H4 H5.
    by rewrite !(proj2 (String.eqb_neq _ _)).
  - by intros -> ->.
  - intros ->. repeat split; by intros ->.
Qed.

Lemma invalid_requests_change_nothing_witness :
  processInteractive 0 (Demo.params "restart" None (Some "deadbeef") None None)
    (Demo.host Byte.x00) Demo.running
  = resolve 0 (Error "INVALID_PARAMS" "Unknown action: restart" None) Demo.running.
Proof.
  apply (invalid_requests_change_nothing 0 (Demo.host Byte.x00) Demo.running
           (Demo.params "restart" None (Some "deadbeef") None None));
    discriminate.
Defined.

(** ** Whole calls on the machine *)

Lemma run_app (l1 l2 : list Event) (st : State) :
  run (l1 ++ l2) st = match run l1 st with Some st' => run l2 st' | None => None end.
Proof.
  revert st. induction l1 as [|e l1 IH]; intros st; simpl; [done|].
  destruct (step e st); [apply IH|done].
Qed.

Lemma withOutput_feed (data : string) (rest : list string) (c : Child) :
  withOutput (feed rest) (withOutput (addOutput data) c) = withOutput (feed (data :: rest)) c.
Proof. by destruct c as [[]]. Qed.

Lemma run_data_exact (r : nat) (chunks : list string) (st : State) (c : Child) :
  heap st !! r = Some c ->
  run (map (Data r) chunks) st = Some (withHeap (alter (withOutput (feed chunks)) r) st).
Proof.
  revert st c. induction chunks as [|data rest IH]; intros st c Hc; simpl.
  - f_equal. destruct st. unfold withHeap. simpl. f_equal.
    symmetry. apply list_alter_id. by intros [[]].
  - rewrite Hc. rewrite (IH _ (withOutput (addOutput data) c)).
    + f_equal. unfold withHeap. simpl. f_equal. rewrite list_alter_alter_eq.
      apply list_alter_ext; [|done]. intros x _. apply withOutput_feed.
    + simpl. rewrite list_lookup_alter. destruct (decide (r = r)); [|done].
      by rewrite Hc.
Qed.

Lemma step_fire (i : nat) (host : Host) (st : State) (due : Z) (t : Task) :
  tasks st !! i = Some (Some (due, t)) ->
  due <= now st ->
  crashes t host = false ->
  step (Fire i host) st = Some (runTask t host (withTasks <[i:=None]> st)).
Proof.
  intros Hi Hdue Hcrash. simpl. rewrite Hi, Hcrash.
  by destruct (Z.leb_spec due (now st)) as [_|?]; [|lia].
Qed.

(** X11. A start that finds room and whose launch succeeds: whatever output
    the process prints before the settle timer fires is what the start
    returns. The session is registered under the drawn id when the timer
    fires (500 ms after the call, or later), the answer is that id with the
    buffer joined by line feeds and [is_running: true], and the session
    object records the command and the time of the call. *)
Theorem start_reports_settle_output (st : State) (c0 : ascii) (cmd : string)
    (cwd session_id input : option string) (timeout_ms : option Z)
    (host host' : Host) (chunks : list string) (wait : Z) :
  (size (sessions st) < MAX_SESSIONS)%nat ->
  spawned host = Spawned ->
  500 <= wait ->
  let commandLine := String c0 cmd in
  let id := generateSessionId host in
  let r := length (heap st) in
  let request :=
    Request {| action := "start"; p_command := Some commandLine; p_cwd := cwd;
               p_session_id := session_id; p_input := input;
               p_timeout_ms := timeout_ms |} host in
  exists st' c,
    run ([request] ++ map (Data r) chunks ++ [Advance wait; Fire (length (tasks st)) host'])
        st = Some st' /\
    replies st' = replies st ++ [(calls st, Payload id (Js.join (feed chunks [])) true)] /\
    sessions st' = <[id := r]> (sessions st) /\
    heap st' !! r = Some c /\
    output (session c) = feed chunks [] /\
    command (session c) = commandLine /\
    started (session c) = now st /\
    isRunning (process (session c)) = true /\
    tasks st' = tasks st ++ [None].
Proof.
  intros Hroom Hspawn Hwait commandLine id r request.
  set (child := {| session := {| process := spawn Spawned; output := [];
                                 started := now st; command := commandLine;
                                 cwd := if Js.truthy cwd
                                        then normalizePath host (default EmptyString cwd)
                                        else getHomeDir host |};
                   call := calls st; reply := None |}).
  set (st1 := {| sessions := sessions st; heap := heap st ++ [child];
                 tasks := tasks st ++ [Some (now st + 500, StartSettle r id)];
                 replies := replies st; calls := S (calls st); now := now st |}).
  assert (step request st = Some st1) as Hstep1.
  { unfold request. cbn [step]. unfold processInteractive. cbn [action].
    change (String.eqb "start" "start") with true.
    cbn [p_command p_cwd Js.truthy negb default]. unfold startProcess.
    cbn [sessions withCalls]. rewrite decide_False by lia.
    rewrite Hspawn. reflexivity. }
  assert (heap st1 !! r = Some child) as Hchild.
  { unfold st1. cbn [heap]. rewrite lookup_app_r by (unfold r; lia).
    by rewrite Nat.sub_diag. }
  assert (run [request] st = Some st1) as Hrun1.
  { cbn [run]. by rewrite Hstep1. }
  rewrite run_app, Hrun1, run_app, (run_data_exact r chunks st1 child Hchild).
  set (st2 := withHeap (alter (withOutput (feed chunks)) r) st1).
  assert (heap st2 !! r = Some (withOutput (feed chunks) child)) as Hfed.
  { unfold st2. cbn [heap withHeap]. rewrite list_lookup_alter.
    destruct (decide (r = r)); [|done]. by rewrite Hchild. }
  cbn [run].
  change (step (Advance wait) st2)
    with (if 0 <=? wait then Some (withNow (now st2 + wait) st2) else None).
  destruct (Z.leb_spec 0 wait) as [_|?]; [|lia].
  set (st3 := withNow (now st2 + wait) st2).
  rewrite (step_fire (length (tasks st)) host' st3 (now st + 500) (StartSettle r id)).
  2:{ simpl. by rewrite list_lookup_middle. }
  2:{ simpl. lia. }
  2:{ reflexivity. }
  cbn [runTask]. unfold startSettle.
  change (heap (withTasks _ st3)) with (heap st2). rewrite Hfed.
  change (isDead _) with false. cbv iota.
  unfold resolveStart.
  change (heap (withSessions _ (withTasks _ st3))) with (heap st2). rewrite Hfed.
  cbn [reply withOutput].
  eexists. eexists. split; [reflexivity|]. cbn.
  split; [done|]. split; [done|].
  rewrite list_lookup_alter. destruct (decide (r = r)); [|done].
  rewrite list_lookup_alter. destruct (decide (r = r)); [|done].
  rewrite lookup_app_r by (unfold r; lia). rewrite Nat.sub_diag. cbn.
  split; [reflexivity|]. repeat split.
  rewrite insert_app_r_alt by lia. by rewrite Nat.sub_diag.
Qed.

Lemma start_reports_settle_output_witness :
  exists st',
    run ([Demo.startReq "python" Byte.xef] ++ map (Data 0) ["Python 3.12"; ">>> "]
         ++ [Advance 500; Fire 1 (Demo.host Byte.x00)]) initial = Some st' /\
    replies st' = [] ++ [(0%nat, Payload "deadbeef" (Js.join (feed ["Python 3.12"; ">>> "] [])) true)].
Proof.
  edestruct (start_reports_settle_output initial "p" "ython" None None None None
               (Demo.host Byte.xef) (Demo.host Byte.x00) ["Python 3.12"; ">>> "] 500)
    as (st' & c & Hrun & Hreplies & _);
    [vm_compute; lia | reflexivity | lia |].
  exists st'. split; [exact Hrun | exact Hreplies].
Defined.
Lemma step_advance (dt : Z) (st : State) :
  0 <= dt -> step (Advance dt) st = Some (withNow (now st + dt) st).
Proof. intros Hdt. simpl. by destruct (Z.leb_spec 0 dt) as [_|?]; [|lia]. Qed.

Lemma run_single (e : Event) (st : State) : run [e] st = step e st.
Proof. simpl. by destruct (step e st). Qed.

Lemma clear_snoc {A} (l : list (option A)) (x : option A) (n : nat) :
  n = length l -> <[n:=None]> (l ++ [x]) = l ++ [None].
Proof. intros ->. rewrite insert_app_r_alt by lia. by rewrite Nat.sub_diag. Qed.

Lemma lookup_snoc {A} (l : list A) (x : A) (n : nat) :
  n = length l -> (l ++ [x]) !! n = Some x.
Proof. intros ->. by rewrite list_lookup_middle. Qed.

Lemma feed_app (chunks1 chunks2 : list string) (buffer : list string) :
  feed (chunks1 ++ chunks2) buffer = feed chunks2 (feed chunks1 buffer).
Proof. revert buffer. induction chunks1 as [|d rest IH]; intros buffer; simpl; [done|apply IH]. Qed.

Lemma write_request_step (st : State) (a : ascii) (s input : string)
    (command cwd : option string) (timeout_ms : option Z) (host : Host)
    (r : nat) (c : Child) :
  let id := String a s in
  getSession id st = Some (r, c) ->
  isDead (process (session c)) = false ->
  step (Request {| action := "write"; p_command := command; p_cwd := cwd;
                   p_session_id := Some id; p_input := Some input;
                   p_timeout_ms := timeout_ms |} host) st
  = Some {| sessions := sessions st;
            heap := alter (withProcess (stdinWrite input)) r (heap st);
            tasks := tasks st ++
                     [Some (now st + 0, WriteDone (calls st) r id (length (output (session c))))];
            replies := replies st; calls := S (calls st); now := now st |}.
Proof.
  intros id Hget Halive. subst id. cbn [step]. unfold processInteractive. cbn [action].
  change (String.eqb "write" "start") with false.
  change (String.eqb "write" "write") with true.
  cbn [p_session_id p_input Js.truthy negb default from_option]. unfold id.
  unfold writeToProcess.
  change (getSession (String a s) (withCalls (S (calls st)) st))
    with (getSession (String a s) st).
  rewrite Hget, Halive. reflexivity.
Qed.

(** X12. A write to a running session, from the request to the answer: the
    input is handed to the process once, the answer comes from the settle
    timer 300 ms (or more) after the pipe accepted the input, and it carries
    the buffer from the call's mark on, whatever arrived before or after the
    pipe's callback. While the buffer evicts nothing, that is all the lines
    printed since the call, joined by line feeds. The session stays
    registered and no callback of the call is left pending. *)
Theorem write_reports_output_since_call (st : State) (a : ascii) (s input : string)
    (command cwd : option string) (timeout_ms : option Z) (host hostDone hostSettle : Host)
    (before after : list string) (wait : Z) (r : nat) (c : Child) :
  let id := String a s in
  let i := length (tasks st) in
  let request :=
    Request {| action := "write"; p_command := command; p_cwd := cwd;
               p_session_id := Some id; p_input := Some input;
               p_timeout_ms := timeout_ms |} host in
  let buffer := output (session c) in
  let delta := Js.slice (Z.of_nat (length buffer)) (feed (before ++ after) buffer) in
  getSession id st = Some (r, c) ->
  isDead (process (session c)) = false ->
  writeError hostDone = None ->
  300 <= wait ->
  exists st' c',
    run ([request] ++ map (Data r) before ++ [Fire i hostDone]
         ++ map (Data r) after ++ [Advance wait; Fire (S i) hostSettle]) st = Some st' /\
    replies st' = replies st ++ [(calls st, Payload id (Js.join delta) true)] /\
    ((length buffer + length (lines (before ++ after)) <= 1000)%nat ->
     delta = lines (before ++ after)) /\
    sessions st' = sessions st /\
    tasks st' = tasks st ++ [None; None] /\
    heap st' !! r = Some c' /\
    written (process (session c')) = written (process (session c)) ++ [input] /\
    signals (process (session c')) = signals (process (session c)).
Proof.
  intros id i request buffer delta Hget Halive Hok Hwait.
  pose proof Hget as Hget'. apply getSession_Some in Hget' as [Hid Hc].
  pose proof (write_request_step st a s input command cwd timeout_ms host r c Hget Halive)
    as Hstep1. fold id request in Hstep1.
  set (st1 := {| sessions := sessions st; heap := _; tasks := _; replies := replies st;
                 calls := S (calls st); now := now st |}) in Hstep1.
  set (c1 := withProcess (stdinWrite input) c).
  assert (heap st1 !! r = Some c1) as Hc1.
  { unfold st1. cbn [heap]. rewrite list_lookup_alter.
    destruct (decide (r = r)); [|done]. by rewrite Hc. }
  assert (run [request] st = Some st1) as Hrun1 by (cbn [run]; by rewrite Hstep1).
  rewrite run_app, Hrun1, run_app, (run_data_exact r before st1 c1 Hc1).
  set (st2 := withHeap (alter (withOutput (feed before)) r) st1).
  assert (heap st2 !! r = Some (withOutput (feed before) c1)) as Hc2.
  { unfold st2. cbn [heap withHeap]. rewrite list_lookup_alter.
    destruct (decide (r = r)); [|done]. by rewrite Hc1. }
  rewrite run_app, run_single.
  rewrite (step_fire i hostDone st2 (now st + 0)
             (WriteDone (calls st) r id (length buffer))).
  2:{ unfold st2, st1, i. cbn [tasks withHeap]. by rewrite list_lookup_middle. }
  2:{ unfold st2, st1. cbn [now withHeap]. lia. }
  2:{ cbn [crashes]. by rewrite Hok. }
  cbn [runTask]. unfold writeDone. rewrite Hok.
  set (st3 := setTimeout _ 300 _).
  assert (heap st3 !! r = Some (withOutput (feed before) c1)) as Hc3 by exact Hc2.
  rewrite run_app, (run_data_exact r after st3 _ Hc3).
  set (st4 := withHeap (alter (withOutput (feed after)) r) st3).
  assert (heap st4 !! r = Some (withOutput (feed after) (withOutput (feed before) c1))) as Hc4.
  { unfold st4. cbn [heap withHeap]. rewrite list_lookup_alter.
    destruct (decide (r = r)); [|done]. by rewrite Hc3. }
  cbn [run]. rewrite (step_advance wait st4) by lia.
  set (st5 := withNow _ st4).
  rewrite (step_fire (S i) hostSettle st5 (now st + 300)
             (WriteSettle (calls st) r id (length buffer))).
  2:{ unfold st5, st4, st3, st2, st1, i. cbn [tasks withNow withHeap setTimeout withTasks].
      rewrite clear_snoc by done. apply lookup_snoc.
      rewrite length_app. cbn [length]. lia. }
  2:{ unfold st5, st4, st3, st2, st1. cbn [now withNow withHeap setTimeout withTasks]. lia. }
  2:{ reflexivity. }
  cbn [runTask]. unfold writeSettle.
  change (heap (withTasks _ st5)) with (heap st4). rewrite Hc4.
  eexists. eexists. split; [reflexivity|].
  assert (output (session (withOutput (feed after) (withOutput (feed before) c1)))
          = feed (before ++ after) buffer) as Hout.
  { rewrite feed_app. unfold c1, buffer. by destruct c as [[]]. }
  split.
  { cbn [replies resolve withTasks withNow]. rewrite Hout. unfold st5, st4, st3, st2, st1.
    cbn [replies withNow withHeap setTimeout withTasks]. do 3 f_equal.
    unfold c1. destruct c as [[p ? ? ? ?] ? ?]. cbn in Halive |- *.
    unfold isDead in Halive. unfold isRunning. cbn.
    by destruct (killed p), (exitCode p). }
  split.
  { intros Hsmall. destruct (delta_suffix (before ++ after) buffer) as (k & Hk & Hzero).
    unfold delta. rewrite Hk, (Hzero Hsmall). apply drop_0. }
  split; [reflexivity|]. split.
  { cbn [tasks resolve withTasks]. unfold st5, st4, st3, st2, st1, i.
    cbn [tasks withNow withHeap setTimeout withTasks].
    rewrite (clear_snoc (tasks st)) by done.
    rewrite clear_snoc by (rewrite length_app; cbn [length]; lia).
    by rewrite <- (assoc_L (++)). }
  cbn [heap resolve withTasks]. change (heap st5) with (heap st4). rewrite Hc4.
  split; [reflexivity|]. unfold c1. by destruct c as [[]].
Qed.

Lemma write_reports_output_since_call_witness :
  exists st',
    run ([Demo.writeReq "deadbeef" "2 + 2"] ++ map (Data 0) []
         ++ [Fire 2 (Demo.host Byte.x00)] ++ map (Data 0) ["4"; ">>> "]
         ++ [Advance 300; Fire 3 (Demo.host Byte.x00)]) Demo.running = Some st' /\
    replies st' = replies Demo.running ++
      [(1%nat, Payload "deadbeef"
                 (Js.join (Js.slice 0 (feed ([] ++ ["4"; ">>> "]) []))) true)].
Proof.
  edestruct (write_reports_output_since_call Demo.running "d" "eadbeef" "2 + 2"
               None None None (Demo.host Byte.x00) (Demo.host Byte.x00)
               (Demo.host Byte.x00) [] ["4"; ">>> "] 300)
    as (st' & c' & Hrun & Hreplies & _);
    [vm_compute; reflexivity | reflexivity | reflexivity | lia |].
  exists st'. split; [exact Hrun | exact Hreplies].
Defined.

(** ** Reads that time out *)

Lemma polls_quiet (n : nat) (host : Host) (k r : nat) (id : string) (t0 T : Z) (c : Child) :
  isRunning (process (session c)) = true ->
  forall (st : State) (i : nat),
    tasks st !! i
      = Some (Some (now st + 100, ReadPoll k r id (length (output (session c))) t0 T)) ->
    length (tasks st) = S i ->
    heap st !! r = Some c ->
    (now st - t0) + 100 * Z.of_nat n < T + 100 ->
    T <= (now st - t0) + 100 * Z.of_nat n ->
    (0 < n)%nat ->
    exists st',
      run (pollsFrom i n host) st = Some st' /\
      replies st' = replies st ++ [(k, Payload id EmptyString true)] /\
      now st' = now st + 100 * Z.of_nat n /\
      sessions st' = sessions st /\ heap st' = heap st /\ calls st' = calls st /\
      tasks st' = <[i:=None]> (tasks st) ++ replicate (n - 1) None.
Proof.
  intros Hrunning. induction n as [|n IH]; intros st i Hi Hlen Hc Hlo Hhi Hpos; [lia|].
  cbn [pollsFrom run]. rewrite (step_advance 100 st) by lia.
  set (st1 := withNow (now st + 100) st).
  rewrite (step_fire i host st1 (now st + 100)
             (ReadPoll k r id (length (output (session c))) t0 T));
    [|exact Hi|simpl; lia|reflexivity].
  cbn [runTask]. unfold checkOutput.
  change (heap (withTasks _ st1)) with (heap st). rewrite Hc, slice_all, Hrunning.
  change (now (withTasks _ st1)) with (now st + 100).
  cbn [length negb]. change (0 <? Z.of_nat 0) with false. cbn [orb].
  destruct (Z.leb_spec T (now st + 100 - t0)) as [Hdone|Hmore].
  - assert (n = 0%nat) as -> by lia. cbn [pollsFrom run].
    eexists. split; [reflexivity|]. cbn.
    split; [done|]. split; [lia|]. split; [done|]. split; [done|]. split; [done|].
    by rewrite app_nil_r.
  - set (st2 := setTimeout _ 100 _).
    destruct (IH st2 (S i)) as (st' & Hrun & Hreplies & Hnow & Hs & Hh & Hcalls & Htasks).
    + unfold st2. cbn [tasks now setTimeout withTasks withNow]. apply lookup_snoc.
      rewrite length_insert. symmetry. exact Hlen.
    + unfold st2. cbn [tasks setTimeout withTasks withNow].
      rewrite length_app, length_insert. change (tasks st1) with (tasks st).
      rewrite Hlen. cbn [length]. lia.
    + exact Hc.
    + change (now st2) with (now st + 100). lia.
    + change (now st2) with (now st + 100). lia.
    + lia.
    + exists st'. split; [exact Hrun|]. split; [exact Hreplies|].
      split; [rewrite Hnow; change (now st2) with (now st + 100); lia|].
      split; [exact Hs|]. split; [exact Hh|]. split; [exact Hcalls|].
      rewrite Htasks. unfold st2. cbn [tasks setTimeout withTasks withNow].
      rewrite clear_snoc by (rewrite length_insert; symmetry; exact Hlen).
      rewrite <- app_assoc. f_equal.
      destruct n as [|n']; [lia|]. cbn [Nat.sub replicate app]. by rewrite Nat.sub_0_r.
Qed.
Lemma polls_pending (m : nat) (host : Host) (k r : nat) (id : string) (t0 T : Z) (c : Child) :
  isRunning (process (session c)) = true ->
  forall (st : State) (i : nat),
    tasks st !! i
      = Some (Some (now st + 100, ReadPoll k r id (length (output (session c))) t0 T)) ->
    length (tasks st) = S i ->
    heap st !! r = Some c ->
    (now st - t0) + 100 * Z.of_nat m < T ->
    exists st',
      run (pollsFrom i m host) st = Some st' /\
      replies st' = replies st /\
      tasks st' !! (i + m)%nat
        = Some (Some (now st' + 100, ReadPoll k r id (length (output (session c))) t0 T)).
Proof.
  intros Hrunning. induction m as [|m IH]; intros st i Hi Hlen Hc Hlo.
  { exists st. rewrite Nat.add_0_r. by cbn [pollsFrom run]. }
  cbn [pollsFrom run]. rewrite (step_advance 100 st) by lia.
  set (st1 := withNow (now st + 100) st).
  rewrite (step_fire i host st1 (now st + 100)
             (ReadPoll k r id (length (output (session c))) t0 T));
    [|exact Hi|simpl; lia|reflexivity].
  cbn [runTask]. unfold checkOutput.
  change (heap (withTasks _ st1)) with (heap st). rewrite Hc, slice_all, Hrunning.
  change (now (withTasks _ st1)) with (now st + 100).
  cbn [length negb]. change (0 <? Z.of_nat 0) with false. cbn [orb].
  destruct (Z.leb_spec T (now st + 100 - t0)) as [Hdone|Hmore]; [lia|].
  set (st2 := setTimeout _ 100 _).
  destruct (IH st2 (S i)) as (st' & Hrun & Hreplies & Htask).
  - unfold st2. cbn [tasks now setTimeout withTasks withNow]. apply lookup_snoc.
    rewrite length_insert. symmetry. exact Hlen.
  - unfold st2. cbn [tasks setTimeout withTasks withNow].
    rewrite length_app, length_insert. change (tasks st1) with (tasks st).
    rewrite Hlen. cbn [length]. lia.
  - exact Hc.
  - change (now st2) with (now st + 100). lia.
  - exists st'. split; [exact Hrun|]. split; [exact Hreplies|].
    by rewrite <- Nat.add_succ_comm.
Qed.

Lemma read_request_step (st : State) (a : ascii) (s : string)
    (command cwd input : option string) (timeout_ms : option Z) (host : Host)
    (r : nat) (c : Child) :
  let id := String a s in
  getSession id st = Some (r, c) ->
  isRunning (process (session c)) = true ->
  0 < default 5000 timeout_ms ->
  step (Request {| action := "read"; p_command := command; p_cwd := cwd;
                   p_session_id := Some id; p_input := input;
                   p_timeout_ms := timeout_ms |} host) st
  = Some {| sessions := sessions st; heap := heap st;
            tasks := tasks st ++
                     [Some (now st + 100,
                            ReadPoll (calls st) r id (length (output (session c)))
                              (now st) (default 5000 timeout_ms))];
            replies := replies st; calls := S (calls st); now := now st |}.
Proof.
  intros id Hget Hrunning HT. subst id. cbn [step]. unfold processInteractive. cbn [action].
  change (String.eqb "read" "start") with false.
  change (String.eqb "read" "write") with false.
  change (String.eqb "read" "read") with true.
  cbn [p_session_id p_timeout_ms Js.truthy negb default from_option]. unfold id.
  unfold readFromProcess.
  change (getSession (String a s) (withCalls (S (calls st)) st))
    with (getSession (String a s) st).
  rewrite Hget. unfold checkOutput.
  apply getSession_Some in Hget as [_ Hc].
  change (heap (withCalls (S (calls st)) st)) with (heap st). rewrite Hc, slice_all, Hrunning.
  change (now (withCalls (S (calls st)) st)) with (now st). rewrite Z.sub_diag.
  cbn [length negb]. change (0 <? Z.of_nat 0) with false. cbn [orb].
  destruct (Z.leb_spec (default 5000 timeout_ms) 0) as [?|_]; [lia|]. reflexivity.
Qed.

(** X14. A read of a running session that prints nothing, with the timer
    fired punctually every 100 ms: while the polls made so far add up to less
    than the timeout, no answer is given; the answer comes at the first poll
    at or after the timeout, that is after the timeout rounded up to a
    multiple of 100 ms, with empty output and [is_running] true. The session
    stays in the store and no poll is left pending. *)
Theorem quiet_read_answers_at_timeout (st : State) (a : ascii) (s : string)
    (command cwd input : option string) (timeout_ms : option Z) (host hostPoll : Host)
    (n : nat) (r : nat) (c : Child) :
  let id := String a s in
  let T := default 5000 timeout_ms in
  let request :=
    Request {| action := "read"; p_command := command; p_cwd := cwd;
               p_session_id := Some id; p_input := input;
               p_timeout_ms := timeout_ms |} host in
  getSession id st = Some (r, c) ->
  isRunning (process (session c)) = true ->
  0 < T ->
  100 * (Z.of_nat n - 1) < T <= 100 * Z.of_nat n ->
  (forall m, (m < n)%nat ->
     exists st', run (request :: pollsFrom (length (tasks st)) m hostPoll) st = Some st' /\
                 replies st' = replies st) /\
  exists st',
    run (request :: pollsFrom (length (tasks st)) n hostPoll) st = Some st' /\
    replies st' = replies st ++ [(calls st, Payload id EmptyString true)] /\
    now st' = now st + 100 * Z.of_nat n /\
    sessions st' = sessions st /\ heap st' = heap st /\
    tasks st' = tasks st ++ replicate n None.
Proof.
  intros id T request Hget Hrunning HT [Hlo Hhi].
  pose proof (read_request_step st a s command cwd input timeout_ms host r c
                Hget Hrunning HT) as Hstep.
  fold id T request in Hstep.
  set (st1 := {| sessions := sessions st; heap := heap st; tasks := _;
                 replies := replies st; calls := S (calls st); now := now st |}) in Hstep.
  pose proof Hget as Hget'. apply getSession_Some in Hget' as [_ Hc].
  assert (tasks st1 !! length (tasks st)
          = Some (Some (now st1 + 100,
                        ReadPoll (calls st) r id (length (output (session c))) (now st) T)))
    as Hi by (by apply lookup_snoc).
  assert (length (tasks st1) = S (length (tasks st))) as Hlen
    by (unfold st1; cbn [tasks]; rewrite length_app; cbn [length]; lia).
  split.
  - intros m Hm.
    destruct (polls_pending m hostPoll (calls st) r id (now st) T c Hrunning
                st1 (length (tasks st)) Hi Hlen Hc) as (st' & Hrun & Hreplies & _).
    { change (now st1) with (now st). lia. }
    exists st'. cbn [run]. rewrite Hstep. by split.
  - destruct (polls_quiet n hostPoll (calls st) r id (now st) T c Hrunning
                st1 (length (tasks st)) Hi Hlen Hc)
      as (st' & Hrun & Hreplies & Hnow & Hs & Hh & _ & Htasks).
    { change (now st1) with (now st). lia. }
    { change (now st1) with (now st). lia. }
    { lia. }
    exists st'. cbn [run]. rewrite Hstep. split; [exact Hrun|].
    split; [exact Hreplies|]. split; [exact Hnow|]. split; [exact Hs|]. split; [exact Hh|].
    rewrite Htasks. unfold st1. cbn [tasks]. rewrite clear_snoc by done.
    rewrite <- app_assoc. f_equal.
    destruct n as [|n']; [lia|]. cbn [Nat.sub replicate app]. by rewrite Nat.sub_0_r.
Qed.

Lemma quiet_read_answers_at_timeout_witness :
  exists st',
    run (Demo.readReq "deadbeef" (Some 250)
         :: pollsFrom (length (tasks Demo.running)) 3 (Demo.host Byte.x00)) Demo.running
      = Some st' /\
    replies st' = replies Demo.running ++ [(1%nat, Payload "deadbeef" EmptyString true)] /\
    now st' = now Demo.running + 100 * Z.of_nat 3.
Proof.
  edestruct (quiet_read_answers_at_timeout Demo.running "d" "eadbeef" None None None
               (Some 250) (Demo.host Byte.x00) (Demo.host Byte.x00) 3)
    as [_ (st' & Hrun & Hreplies & Hnow & _)];
    [vm_compute; reflexivity | reflexivity | reflexivity | simpl; lia |].
  exists st'. split; [exact Hrun|]. split; [exact Hreplies | exact Hnow].
Defined.

(** ** The calls and their answers *)

Lemma owed_tasks_snoc (ts : list (option (Z * Task))) (due : Z) (t : Task) :
  owedByTasks (ts ++ [Some (due, t)]) = owedByTasks ts ++ option_list (taskCall t).
Proof. unfold owedByTasks. rewrite omap_app. simpl. by destruct (taskCall t). Qed.

Lemma owed_tasks_clear (ts : list (option (Z * Task))) (i : nat) (due : Z) (t : Task) :
  ts !! i = Some (Some (due, t)) ->
  owedByTasks ts ≡ₚ option_list (taskCall t) ++ owedByTasks (<[i:=None]> ts).
Proof.
  revert i. induction ts as [|x ts IH]; intros [|i] Hi; simpl in *; try done.
  - injection Hi as ->. unfold owedByTasks. simpl. by destruct (taskCall t).
  - specialize (IH i Hi). unfold owedByTasks in *. simpl.
    destruct x as [[due' t']|]; [|done].
    destruct (taskCall t'); simpl; [|done].
    rewrite IH. by rewrite Permutation_middle.
Qed.

Lemma owed_starts_alter (f : Child -> Child) (r : nat) (h : list Child) :
  (forall c, call (f c) = call c /\ reply (f c) = reply c) ->
  owedByStarts (alter f r h) = owedByStarts h.
Proof.
  intros Hf. revert r. induction h as [|c h IH]; intros [|r]; simpl; try done.
  - unfold owedByStarts. simpl. destruct (Hf c) as [-> ->]. done.
  - specialize (IH r). unfold owedByStarts, alter in *. simpl. by rewrite IH.
Qed.

Lemma owed_starts_reply (v : Response) (r : nat) (h : list Child) (c : Child) :
  h !! r = Some c -> reply c = None ->
  owedByStarts h ≡ₚ call c :: owedByStarts (alter (withReply v) r h).
Proof.
  revert r. induction h as [|x h IH]; intros [|r] Hr Hnone; simpl in *; try done.
  - injection Hr as ->. unfold owedByStarts. simpl. by rewrite Hnone.
  - specialize (IH r Hr Hnone). unfold owedByStarts, alter in *. simpl.
    destruct (reply x); [done|]. rewrite IH. apply perm_swap.
Qed.

Lemma perm_post {A} (k : A) (a b : list A) : (a ++ [k]) ++ b ≡ₚ k :: a ++ b.
Proof. rewrite <- (assoc_L (++)). simpl. by rewrite <- Permutation_middle. Qed.

Lemma perm_post2 {A} (k : A) (a b c : list A) : a ++ (b ++ [k]) ++ c ≡ₚ k :: a ++ b ++ c.
Proof. rewrite perm_post. by rewrite <- Permutation_middle. Qed.

Lemma posts_refl (st : State) : posts [] st st.
Proof. by repeat split. Qed.

Lemma posts_trans (ks1 ks2 : list nat) (a b c : State) :
  posts ks1 a b -> posts ks2 b c -> posts (ks2 ++ ks1) a c.
Proof.
  intros (Hl1 & Hc1 & Hh1 & Hr1) (Hl2 & Hc2 & Hh2 & Hr2). repeat split.
  - rewrite Hl2, Hl1. by rewrite (assoc_L (++)).
  - congruence.
  - lia.
  - auto.
Qed.

Lemma posts_resolve (k : nat) (v : Response) (st : State) : posts [k] st (resolve k v st).
Proof.
  repeat split; try done. unfold ledger. simpl. rewrite fmap_app. apply perm_post.
Qed.

Lemma posts_setTimeout (t : Task) (ms : Z) (st : State) :
  (forall r, taskRef t = Some r -> (r < length (heap st))%nat) ->
  posts (option_list (taskCall t)) st (setTimeout t ms st).
Proof.
  intros Href. repeat split; try done.
  - unfold ledger. simpl. rewrite owed_tasks_snoc.
    destruct (taskCall t) as [k|]; simpl; [|by rewrite app_nil_r].
    apply perm_post2.
  - intros Hok i due t' r Hi Ht'. simpl in *.
    apply lookup_app_Some in Hi as [Hi|[_ Hi]]; [by eapply Hok|].
    apply list_lookup_singleton_Some in Hi as [_ Hi]. injection Hi as _ <-. by apply Href.
Qed.

Lemma posts_sessions (f : gmap string nat -> gmap string nat) (st : State) :
  posts [] st (withSessions f st).
Proof. by repeat split. Qed.

Lemma posts_alter (f : Child -> Child) (r : nat) (st : State) :
  (forall c, call (f c) = call c /\ reply (f c) = reply c) ->
  posts [] st (withHeap (alter f r) st).
Proof.
  intros Hf. repeat split; try done.
  - unfold ledger. simpl. by rewrite owed_starts_alter.
  - simpl. by rewrite length_alter.
  - intros Hok i due t r' Hi Ht. simpl in *. rewrite length_alter. by eapply Hok.
Qed.

Lemma posts_resolveStart (r : nat) (v : Response) (st : State) :
  posts [] st (resolveStart r v st).
Proof.
  unfold resolveStart. destruct (heap st !! r) as [c|] eqn:Hc; [|apply posts_refl].
  destruct (reply c) eqn:Hreply; [apply posts_refl|].
  repeat split; try done.
  - unfold ledger. simpl. rewrite fmap_app. simpl.
    rewrite (owed_starts_reply v r (heap st) c Hc Hreply).
    rewrite perm_post. simpl. rewrite <- Permutation_middle.
    by rewrite <- Permutation_middle.
  - simpl. by rewrite length_alter.
  - intros Hok i due t r' Hi Ht. simpl in *. rewrite length_alter. by eapply Hok.
Qed.

Lemma posts_sendSignal (r : nat) (sig : Signal) (host : Host) (st : State) :
  posts [] st (sendSignal r sig host st).
Proof.
  unfold sendSignal. destruct (heap st !! r) as [c|]; [|apply posts_refl].
  destruct (kill sig (delivered host) (process (session c))) as [p err].
  assert (posts [] st (withHeap (alter (withProcess (fun _ => p)) r) st)) as Halter
    by (by apply posts_alter).
  destruct err as [msg|]; [|done].
  apply (posts_trans [] [] _ _ _ Halter). apply posts_resolveStart.
Qed.

Lemma posts_alloc (c : Child) (st : State) :
  reply c = None ->
  posts [call c] st (withHeap (fun h => h ++ [c]) st).
Proof.
  intros Hnone. repeat split; try done.
  - unfold ledger, owedByStarts. simpl. rewrite omap_app. simpl. rewrite Hnone. simpl.
    rewrite !(assoc_L (++)). by rewrite <- Permutation_cons_append.
  - simpl. rewrite length_app. lia.
  - intros Hok i due t r Hi Ht. simpl in *. rewrite length_app.
    specialize (Hok i due t r Hi Ht). lia.
Qed.

Lemma posts_startProcess (k : nat) (command : string) (cwd : option string)
    (host : Host) (st : State) :
  posts [k] st (startProcess k command cwd host st).
Proof.
  unfold startProcess. destruct (decide _); [apply posts_resolve|].
  set (c := {| session := _; call := k; reply := None |}).
  pose proof (posts_alloc c st eq_refl) as Halloc. simpl in Halloc.
  set (st1 := withHeap (fun h => h ++ [c]) st) in *.
  assert (length (heap st) < length (heap st1))%nat as Hlen
    by (simpl; rewrite length_app; simpl; lia).
  set (st2 := match spawned host with Spawned => st1 | SpawnFailed _ msg => _ end).
  assert (posts [] st1 st2) as Hstart
    by (unfold st2; destruct (spawned host); [apply posts_refl|apply posts_resolveStart]).
  apply (posts_trans [k] [] _ _ _ (posts_trans [k] [] _ _ _ Halloc Hstart)).
  apply (posts_setTimeout (StartSettle _ _)). intros r [= <-].
  destruct Hstart as (_ & _ & Hle & _). lia.
Qed.

Lemma posts_startSettle (r : nat) (sessionId : string) (st : State) :
  posts [] st (startSettle r sessionId st).
Proof.
  unfold startSettle. destruct (heap st !! r) as [c|]; [|apply posts_refl].
  destruct (isDead _); [apply posts_resolveStart|].
  apply (posts_trans [] [] _ _ _ (posts_sessions (insert sessionId r) st)).
  apply posts_resolveStart.
Qed.

Lemma posts_writeToProcess (k : nat) (sessionId input : string) (st : State) :
  posts [k] st (writeToProcess k sessionId input st).
Proof.
  unfold writeToProcess. destruct (getSession sessionId st) as [[r c]|] eqn:Hget;
    [|apply posts_resolve].
  destruct (isDead _).
  - apply (posts_trans [] [k] _ _ _ (posts_sessions (delete sessionId) st)).
    apply posts_resolve.
  - apply getSession_Some in Hget as [_ Hc]. apply lookup_lt_Some in Hc.
    apply (posts_trans [] [k] _ (withHeap (alter (withProcess (stdinWrite input)) r) st)).
    + by apply posts_alter.
    + apply (posts_setTimeout (WriteDone k r _ _)). intros r' [= <-].
      simpl. by rewrite length_alter.
Qed.

Lemma posts_writeDone (k r : nat) (sessionId : string) (mark : nat) (host : Host)
    (st : State) :
  (r < length (heap st))%nat ->
  posts [k] st (writeDone k r sessionId mark host st).
Proof.
  intros Hr. unfold writeDone. destruct (writeError host); [apply posts_resolve|].
  apply (posts_setTimeout (WriteSettle k r _ _)). by intros r' [= <-].
Qed.

Lemma posts_writeSettle (k r : nat) (sessionId : string) (mark : nat) (st : State) :
  (r < length (heap st))%nat ->
  posts [k] st (writeSettle k r sessionId mark st).
Proof.
  intros Hr. unfold writeSettle. apply lookup_lt_is_Some in Hr as [c ->].
  apply posts_resolve.
Qed.

Lemma posts_checkOutput (k r : nat) (id : string) (mark : nat) (t0 t : Z) (st : State) :
  (r < length (heap st))%nat ->
  posts [k] st (checkOutput k r id mark t0 t st).
Proof.
  intros Hr. unfold checkOutput. pose proof Hr as Hr'.
  apply lookup_lt_is_Some in Hr' as [c ->].
  destruct (_ || _); [apply posts_resolve|].
  apply (posts_setTimeout (ReadPoll k r _ _ _ _)). by intros r' [= <-].
Qed.

Lemma posts_readFromProcess (k : nat) (id : string) (t : option Z) (st : State) :
  posts [k] st (readFromProcess k id t st).
Proof.
  unfold readFromProcess. destruct (getSession id st) as [[r c]|] eqn:Hget;
    [|apply posts_resolve].
  apply posts_checkOutput. apply getSession_Some in Hget as [_ Hc].
  by apply lookup_lt_Some in Hc.
Qed.

Lemma posts_killProcess (k : nat) (id : string) (host : Host) (st : State) :
  posts [k] st (killProcess k id host st).
Proof.
  unfold killProcess. destruct (getSession id st) as [[r c]|] eqn:Hget;
    [|apply posts_resolve].
  apply getSession_Some in Hget as [_ Hc]. apply lookup_lt_Some in Hc.
  match goal with |- context [withSessions (delete id) ?s] => set (st1 := s) end.
  assert (posts [] st st1) as Hsig.
  { unfold st1. destruct (_ && _); [|apply posts_refl].
    pose proof (posts_sendSignal r SIGTERM host st) as Hs.
    apply (posts_trans [] [] _ _ _ Hs).
    apply (posts_setTimeout (KillEscalate r)). intros r' [= <-].
    destruct Hs as (_ & _ & Hle & _). lia. }
  apply (posts_trans [] [k] _ _ _ Hsig).
  apply (posts_trans [] [k] _ _ _ (posts_sessions (delete id) st1)). apply posts_resolve.
Qed.

Lemma posts_killEscalate (r : nat) (host : Host) (st : State) :
  posts [] st (killEscalate r host st).
Proof.
  unfold killEscalate. destruct (heap st !! r) as [c|]; [|apply posts_refl].
  destruct (negb _); [apply posts_sendSignal|apply posts_refl].
Qed.

Lemma posts_processInteractive (k : nat) (params : ProcessInteractiveParams)
    (host : Host) (st : State) :
  posts [k] st (processInteractive k params host st).
Proof.
  unfold processInteractive.
  repeat match goal with
         | |- context [if ?b then _ else _] => destruct b
         | |- context [match ?o with Some _ => _ | None => _ end] => destruct o
         end;
    first [apply posts_resolve | apply posts_startProcess | apply posts_writeToProcess
          | apply posts_readFromProcess | apply posts_killProcess].
Qed.

Lemma posts_runTask (t : Task) (host : Host) (st : State) :
  (forall r, taskRef t = Some r -> (r < length (heap st))%nat) ->
  posts (option_list (taskCall t)) st (runTask t host st).
Proof.
  intros Href. destruct t; simpl.
  - apply posts_startSettle.
  - by apply posts_writeDone, Href.
  - by apply posts_writeSettle, Href.
  - by apply posts_checkOutput, Href.
  - apply posts_killEscalate.
  - unfold cleanup.
    eapply (posts_trans [] [] _ _ _ (posts_sessions _ st)).
    by apply (posts_setTimeout Cleanup).
Qed.

Lemma balanced_initial : balanced initial.
Proof.
  split; [done|]. intros i due t r Hi Ht.
  destruct i as [|i]; [|done]. simpl in Hi. by injection Hi as _ <-.
Qed.

Lemma balanced_frame (st st' : State) :
  ledger st' = ledger st -> calls st' = calls st -> tasks st' = tasks st ->
  length (heap st') = length (heap st) ->
  balanced st -> balanced st'.
Proof.
  intros Hl Hc Ht Hh [Hperm Hok]. split; [by rewrite Hl, Hc|].
  intros i due t r Hi Hr. rewrite Ht in Hi. rewrite Hh. by eapply Hok.
Qed.

Lemma balanced_step (e : Event) (st st' : State) :
  balanced st -> step e st = Some st' -> balanced st'.
Proof.
  intros [Hperm Hok] Hstep. destruct e as [params host|i host|r data|r code|r sig|dt];
    simpl in Hstep.
  - injection Hstep as <-.
    destruct (posts_processInteractive (calls st) params host (withCalls (S (calls st)) st))
      as (Hl & Hc & _ & Hrefs).
    split; [|by apply Hrefs].
    rewrite Hl, Hc. change (ledger (withCalls _ st)) with (ledger st).
    change (calls (withCalls (S (calls st)) st)) with (S (calls st)).
    rewrite Hperm, seq_S. apply Permutation_app_comm.
  - destruct (tasks st !! i) as [[[due t]|]|] eqn:Hi; try done.
    destruct (due <=? now st); [|done].
    destruct (crashes t host); [done|]. injection Hstep as <-.
    set (st0 := withTasks <[i:=None]> st).
    assert (refsOk st0) as Hok0.
    { intros j due' t' r Hj Hr. unfold st0 in Hj. simpl in Hj.
      destruct (decide (i = j)) as [->|Hne].
      - rewrite list_lookup_insert_eq in Hj by (by eapply lookup_lt_Some). done.
      - rewrite list_lookup_insert_ne in Hj by done. by eapply Hok. }
    destruct (posts_runTask t host st0) as (Hl & Hc & _ & Hrefs).
    { intros r Hr. by eapply Hok. }
    split; [|by apply Hrefs].
    rewrite Hl, Hc. change (calls st0) with (calls st). rewrite <- Hperm.
    unfold ledger. change (replies st0) with (replies st). change (heap st0) with (heap st).
    change (tasks st0) with (<[i:=None]> (tasks st)).
    rewrite (owed_tasks_clear (tasks st) i due t Hi).
    rewrite !(assoc_L (++)). apply Permutation_app_tail, Permutation_app_tail.
    apply Permutation_app_comm.
  - destruct (heap st !! r); [|done]. injection Hstep as <-.
    eapply balanced_frame; [| | | |by split]; try done.
    + unfold ledger. simpl. by rewrite owed_starts_alter.
    + simpl. by rewrite length_alter.
  - destruct (heap st !! r) as [c|]; [|done]. destruct (exited _); [done|].
    injection Hstep as <-.
    eapply balanced_frame; [| | | |by split]; try done.
    + unfold ledger. simpl. by rewrite owed_starts_alter.
    + simpl. by rewrite length_alter.
  - destruct (heap st !! r) as [c|]; [|done].
    destruct (exited _); [done|]. injection Hstep as <-.
    eapply balanced_frame; [| | | |by split]; try done.
    + unfold ledger. simpl. by rewrite owed_starts_alter.
    + simpl. by rewrite length_alter.
  - destruct (0 <=? dt); [|done]. injection Hstep as <-.
    eapply balanced_frame; [| | | |by split]; done.
Qed.

Lemma balanced_run (events : list Event) (st st' : State) :
  balanced st -> run events st = Some st' -> balanced st'.
Proof.
  revert st. induction events as [|e events IH]; intros st Hb Hrun; simpl in Hrun.
  - by injection Hrun as <-.
  - destruct (step e st) as [st1|] eqn:Hstep; [|done].
    eapply IH; [|exact Hrun]. by eapply balanced_step.
Qed.

(** X15. Every call is answered at most once, and none is lost: at any
    moment the calls answered so far, the calls whose write or read callback
    is still pending and the calls whose start has not been settled are,
    together, exactly the calls made, each of them once. So no answer comes
    for a call that was not made, no call is answered twice, and a call
    without an answer still has the callback or the start promise that will
    give it. *)
Theorem every_call_answered_once (events : list Event) (st : State) :
  run events initial = Some st ->
  (replies st).*1 ++ owedByTasks (tasks st) ++ owedByStarts (heap st)
    ≡ₚ seq 0 (calls st) /\
  NoDup (replies st).*1 /\
  (forall k v, (k, v) ∈ replies st -> (k < calls st)%nat) /\
  (forall k, (k < calls st)%nat -> k ∉ (replies st).*1 ->
             k ∈ owedByTasks (tasks st) \/ k ∈ owedByStarts (heap st)).
Proof.
  intros Hrun. destruct (balanced_run events initial st balanced_initial Hrun) as [Hperm _].
  unfold ledger in Hperm. split; [exact Hperm|].
  assert (NoDup ((replies st).*1 ++ owedByTasks (tasks st) ++ owedByStarts (heap st)))
    as Hnodup by (rewrite Hperm; apply NoDup_seq).
  split; [by apply NoDup_app in Hnodup as [? _]|]. split.
  - intros k v Hin.
    assert (k ∈ seq 0 (calls st)) as Hk.
    { rewrite <- Hperm. apply elem_of_app. left. apply (list_elem_of_fmap_2 fst) in Hin. exact Hin. }
    apply elem_of_seq in Hk. lia.
  - intros k Hk Hnot.
    assert (k ∈ seq 0 (calls st)) as Hin by (apply elem_of_seq; lia).
    rewrite <- Hperm in Hin. apply elem_of_app in Hin as [Hin|Hin]; [done|].
    by apply elem_of_app in Hin.
Qed.

Lemma every_call_answered_once_witness :
  exists st,
    run (Demo.oneSession ++ [Demo.readReq "deadbeef" None; Demo.listReq]) initial = Some st /\
    (replies st).*1 ++ owedByTasks (tasks st) ++ owedByStarts (heap st)
      ≡ₚ seq 0 (calls st).
Proof.
  set (events := Demo.oneSession ++ [Demo.readReq "deadbeef" None; Demo.listReq]).
  destruct (run events initial) as [st|] eqn:Hrun; [|vm_compute in Hrun; discriminate].
  exists st. split; [reflexivity|].
  destruct (every_call_answered_once events st Hrun) as [H _]. exact H.
Defined.

(** ** What a process has printed *)

Lemma feed_last (chunks : list string) (buffer : list string) :
  (length buffer <= 1000)%nat ->
  feed chunks buffer = Js.slice (-1000) (buffer ++ lines chunks).
Proof.
  rewrite (slice_last 1000) by lia.
  revert buffer. induction chunks as [|data rest IH]; intros buffer Hlen.
  - unfold lines. simpl. rewrite app_nil_r.
    replace (length buffer - 1000)%nat with 0%nat by lia. done.
  - cbn [feed]. rewrite IH by (rewrite addOutput_drop, length_drop; lia).
    rewrite addOutput_drop. unfold lines. cbn [flat_map].
    set (x := buffer ++ Js.split data). set (y := flat_map Js.split rest).
    rewrite (assoc_L (++)). fold x.
    destruct (decide (length x <= 1000)%nat) as [Hsmall|Hbig].
    + replace (length x - 1000)%nat with 0%nat by lia. done.
    + rewrite <- drop_app_le by lia. rewrite drop_drop. f_equal.
      rewrite length_drop, !length_app. lia.
Qed.

Lemma keeps_refl (st : State) : keeps st st.
Proof. intros r c Hc. by exists c. Qed.

Lemma keeps_trans (a b c : State) : keeps a b -> keeps b c -> keeps a c.
Proof.
  intros Hab Hbc r x Hx. destruct (Hab r x Hx) as (y & Hy & Hxy).
  destruct (Hbc r y Hy) as (z & Hz & Hyz). exists z. split; [done|congruence].
Qed.

Lemma keeps_frame (st st' : State) : heap st' = heap st -> keeps st st'.
Proof. intros Hh r c Hc. exists c. by rewrite Hh. Qed.

Lemma keeps_alter (f : Child -> Child) (r : nat) (st : State) :
  (forall c, output (session (f c)) = output (session c)) ->
  keeps st (withHeap (alter f r) st).
Proof.
  intros Hf r' c Hc. simpl. rewrite list_lookup_alter.
  destruct (decide (r = r')) as [->|_]; rewrite Hc; simpl; eauto.
Qed.

Lemma keeps_resolveStart (r : nat) (v : Response) (st : State) :
  keeps st (resolveStart r v st).
Proof.
  unfold resolveStart. destruct (heap st !! r) as [c|]; [|apply keeps_refl].
  destruct (reply c); [apply keeps_refl|].
  eapply keeps_trans; [by apply (keeps_alter (withReply v) r)|by apply keeps_frame].
Qed.

Lemma keeps_sendSignal (r : nat) (sig : Signal) (host : Host) (st : State) :
  keeps st (sendSignal r sig host st).
Proof.
  unfold sendSignal. destruct (heap st !! r) as [c|]; [|apply keeps_refl].
  destruct (kill sig (delivered host) (process (session c))) as [p err].
  assert (keeps st (withHeap (alter (withProcess (fun _ => p)) r) st)) as Halter
    by (by apply keeps_alter).
  destruct err; [|done]. eapply keeps_trans; [exact Halter|apply keeps_resolveStart].
Qed.

Lemma keeps_startProcess (k : nat) (command : string) (cwd : option string)
    (host : Host) (st : State) :
  keeps st (startProcess k command cwd host st).
Proof.
  unfold startProcess. destruct (decide _); [by apply keeps_frame|].
  set (c := {| session := _; call := k; reply := None |}).
  set (st1 := withHeap (fun h => h ++ [c]) st).
  assert (keeps st st1) as Halloc.
  { intros r x Hx. exists x. split; [|done]. simpl. by apply lookup_app_l_Some. }
  eapply keeps_trans; [exact Halloc|].
  match goal with |- keeps _ (setTimeout _ _ ?s) => apply (keeps_trans _ s) end;
    [|by apply keeps_frame].
  destruct (spawned host); [apply keeps_refl|apply keeps_resolveStart].
Qed.

Lemma keeps_startSettle (r : nat) (sessionId : string) (st : State) :
  keeps st (startSettle r sessionId st).
Proof.
  unfold startSettle. destruct (heap st !! r) as [c|]; [|apply keeps_refl].
  destruct (isDead _); [apply keeps_resolveStart|].
  eapply keeps_trans; [|apply keeps_resolveStart]. by apply (keeps_frame st).
Qed.

Lemma keeps_writeToProcess (k : nat) (sessionId input : string) (st : State) :
  keeps st (writeToProcess k sessionId input st).
Proof.
  unfold writeToProcess. destruct (getSession sessionId st) as [[r c]|];
    [|by apply keeps_frame].
  destruct (isDead _); [by apply keeps_frame|].
  eapply keeps_trans; [by apply (keeps_alter (withProcess (stdinWrite input)) r)|].
  by apply keeps_frame.
Qed.

Lemma keeps_checkOutput (k r : nat) (id : string) (mark : nat) (t0 t : Z) (st : State) :
  keeps st (checkOutput k r id mark t0 t st).
Proof.
  unfold checkOutput. destruct (heap st !! r); [|apply keeps_refl].
  destruct (_ || _); by apply keeps_frame.
Qed.

Lemma keeps_killProcess (k : nat) (id : string) (host : Host) (st : State) :
  keeps st (killProcess k id host st).
Proof.
  unfold killProcess. destruct (getSession id st) as [[r c]|]; [|by apply keeps_frame].
  match goal with |- keeps _ (resolve _ _ (withSessions _ ?s)) => apply (keeps_trans _ s) end;
    [|by apply keeps_frame].
  destruct (_ && _); [|apply keeps_refl].
  eapply keeps_trans; [apply keeps_sendSignal|by apply keeps_frame].
Qed.

Lemma keeps_processInteractive (k : nat) (params : ProcessInteractiveParams)
    (host : Host) (st : State) :
  keeps st (processInteractive k params host st).
Proof.
  unfold processInteractive.
  repeat match goal with
         | |- context [if ?b then _ else _] => destruct b
         | |- context [match ?o with Some _ => _ | None => _ end] => destruct o
         end;
    first [by apply keeps_frame | apply keeps_startProcess | apply keeps_writeToProcess
          | apply keeps_killProcess | idtac].
  unfold readFromProcess. destruct (getSession _ _) as [[r c]|]; [|by apply keeps_frame].
  apply keeps_checkOutput.
Qed.

Lemma keeps_runTask (t : Task) (host : Host) (st : State) :
  keeps st (runTask t host st).
Proof.
  destruct t; simpl.
  - apply keeps_startSettle.
  - unfold writeDone. destruct (writeError host); by apply keeps_frame.
  - unfold writeSettle. destruct (heap st !! r); [by apply keeps_frame|apply keeps_refl].
  - apply keeps_checkOutput.
  - unfold killEscalate. destruct (heap st !! r) as [c|]; [|apply keeps_refl].
    destruct (negb _); [apply keeps_sendSignal|apply keeps_refl].
  - by apply keeps_frame.
Qed.

Lemma step_output (e : Event) (st st' : State) (r : nat) (c : Child) :
  step e st = Some st' -> heap st !! r = Some c ->
  exists c', heap st' !! r = Some c' /\
             output (session c') = feed (dataFor r [e]) (output (session c)).
Proof.
  intros Hstep Hc. destruct e as [params host|i host|r' data|r' code|r'|dt];
    simpl in Hstep; cbn [dataFor omap list_omap feed].
  - injection Hstep as <-.
    apply (keeps_processInteractive _ params host (withCalls (S (calls st)) st) r c Hc).
  - destruct (tasks st !! i) as [[[due t]|]|]; try done.
    destruct (due <=? now st); [|done].
    destruct (crashes t host); [done|]. injection Hstep as <-.
    apply (keeps_runTask t host (withTasks <[i:=None]> st) r c Hc).
  - destruct (heap st !! r') eqn:Hr'; [|done]. injection Hstep as <-. simpl.
    rewrite list_lookup_alter. destruct (decide (r' = r)) as [->|Hne].
    + rewrite Hc. simpl. eauto.
    + rewrite Hc. simpl. eauto.
  - destruct (heap st !! r') as [c0|]; [|done]. destruct (exited _); [done|].
    injection Hstep as <-. by apply (keeps_alter _ r' st).
  - destruct (heap st !! r') as [c0|]; [|done].
    destruct (exited _); [done|]. injection Hstep as <-.
    by apply (keeps_alter _ r' st).
  - destruct (0 <=? dt); [|done]. injection Hstep as <-. by apply (keeps_frame st).
Qed.

Lemma run_output (events : list Event) (st st' : State) (r : nat) (c : Child) :
  run events st = Some st' -> heap st !! r = Some c ->
  exists c', heap st' !! r = Some c' /\
             output (session c') = feed (dataFor r events) (output (session c)).
Proof.
  revert st c. induction events as [|e events IH]; intros st c Hrun Hc; simpl in Hrun.
  - injection Hrun as <-. by exists c.
  - destruct (step e st) as [st1|] eqn:Hstep; [|done].
    destruct (step_output e st st1 r c Hstep Hc) as (c1 & Hc1 & Hout1).
    destruct (IH st1 c1 Hrun Hc1) as (c' & Hc' & Hout). exists c'. split; [done|].
    rewrite Hout, Hout1. change (e :: events) with ([e] ++ events).
    unfold dataFor. rewrite omap_app. by rewrite feed_app.
Qed.

(** X16. The buffer of a session is the last 1000 lines of what its process
    has printed, whatever else happened in between: no request and no timer
    touches a buffer (a read or a write returns lines and leaves them there),
    and the chunks of other processes go to their own buffers. From any
    state on, the buffer after [events] is the old buffer followed by the
    lines of the chunks the process wrote, cut to its last 1000 lines. *)
Theorem buffer_is_last_1000_lines (events : list Event) (st st' : State)
    (r : nat) (c : Child) :
  run events st = Some st' ->
  heap st !! r = Some c ->
  (length (output (session c)) <= 1000)%nat ->
  exists c',
    heap st' !! r = Some c' /\
    output (session c')
    = Js.slice (-1000) (output (session c) ++ lines (dataFor r events)).
Proof.
  intros Hrun Hc Hlen. destruct (run_output events st st' r c Hrun Hc) as (c' & Hc' & Hout).
  exists c'. split; [done|]. rewrite Hout. by apply feed_last.
Qed.

Lemma buffer_is_last_1000_lines_witness :
  exists st' c',
    run [Data 0 "A"; Demo.readReq "deadbeef" None; Data 0 "B"; Advance 100; Demo.fire 2]
      Demo.running = Some st' /\
    heap st' !! 0%nat = Some c' /\
    output (session c') = Js.slice (-1000) ([] ++ lines (["A"; "B"])).
Proof.
  set (events := [Data 0 "A"; Demo.readReq "deadbeef" None; Data 0 "B"; Advance 100;
                  Demo.fire 2]).
  destruct (run events Demo.running) as [st'|] eqn:Hrun;
    [|vm_compute in Hrun; discriminate].
  edestruct (buffer_is_last_1000_lines events Demo.running st' 0) as (c' & Hc' & Hout);
    [exact Hrun | vm_compute; reflexivity | simpl; lia |].
  exists st', c'. split; [reflexivity|]. split; [exact Hc' | exact Hout].
Defined.

(** ** The format of session ids *)

Lemma hexDigit_isHexDigit (n : N) : isHexDigit (Js.hexDigit n) = true.
Proof.
  unfold Js.hexDigit. generalize (N.to_nat n). intros m.
  do 15 (destruct m as [|m]; [reflexivity|]). reflexivity.
Qed.

Lemma toHex_digits (buf : list Byte.byte) :
  String.length (Js.toHex buf) = (2 * length buf)%nat /\
  Forall (fun c => isHexDigit c = true) (list_ascii_of_string (Js.toHex buf)).
Proof.
  induction buf as [|b buf [IHlen IHall]]; simpl; [by split|]. split; [lia|].
  repeat constructor; try apply hexDigit_isHexDigit. exact IHall.
Qed.

(** X17. A session id is eight lower-case hexadecimal digits, two for each
    of the four random bytes, high digit first; so it is never the empty
    string, which the entry point would refuse as a missing [session_id],
    and two ids are equal only when the four bytes were. *)
Theorem session_id_format (host : Host) :
  length (randomBytes4 host) = 4%nat ->
  String.length (generateSessionId host) = 8%nat /\
  Forall (fun c => isHexDigit c = true) (list_ascii_of_string (generateSessionId host)) /\
  Js.truthy (Some (generateSessionId host)) = true /\
  (forall host', generateSessionId host' = generateSessionId host ->
                 randomBytes4 host' = randomBytes4 host).
Proof.
  intros Hlen. unfold generateSessionId.
  destruct (toHex_digits (randomBytes4 host)) as [Hl Hall]. rewrite Hlen in Hl.
  split; [exact Hl|]. split; [exact Hall|]. split.
  - destruct (Js.toHex (randomBytes4 host)); [discriminate Hl|reflexivity].
  - intros host'. apply toHex_inj.
Qed.

Lemma session_id_format_witness :
  String.length (generateSessionId (Demo.host Byte.xef)) = 8%nat.
Proof.
  destruct (session_id_format (Demo.host Byte.xef)) as [H _]; [reflexivity | exact H].
Defined.

(** ** The signals a process is sent *)

Lemma quiet_frame (st st' : State) : heap st' = heap st -> quiet st -> quiet st'.
Proof. intros Hh Hq r c Hc. rewrite Hh in Hc. by eapply Hq. Qed.

Lemma quiet_alter (f : Child -> Child) (r : nat) (st : State) :
  (forall c, heap st !! r = Some c -> oneSignal c -> oneSignal (f c)) ->
  quiet st -> quiet (withHeap (alter f r) st).
Proof.
  intros Hf Hq r' c' Hc'. simpl in Hc'. rewrite list_lookup_alter in Hc'.
  destruct (decide (r = r')) as [->|_]; [|by eapply Hq].
  destruct (heap st !! r') as [c|] eqn:Hc; [|done]. injection Hc' as <-.
  apply Hf; [done|]. by eapply Hq.
Qed.

Lemma quiet_resolveStart (r : nat) (v : Response) (st : State) :
  quiet st -> quiet (resolveStart r v st).
Proof.
  intros Hq. unfold resolveStart. destruct (heap st !! r) as [c|]; [|done].
  destruct (reply c); [done|].
  apply (quiet_frame (withHeap (alter (withReply v) r) st)); [done|].
  by apply quiet_alter.
Qed.

Lemma quiet_sendSignal (r : nat) (sig : Signal) (host : Host) (st : State) :
  (forall c, heap st !! r = Some c -> killed (process (session c)) = false) ->
  quiet st -> quiet (sendSignal r sig host st).
Proof.
  intros Hfresh Hq. unfold sendSignal. destruct (heap st !! r) as [c|] eqn:Hc; [|done].
  destruct (kill sig (delivered host) (process (session c))) as [p err] eqn:Hkill.
  assert (quiet (withHeap (alter (withProcess (fun _ => p)) r) st)) as Hq1.
  { apply quiet_alter; [|done]. intros c0 Hc0 [Hlen Hset].
    assert (c0 = c) as -> by congruence.
    assert (signals (process (session c)) = []) as Hnone.
    { destruct (signals (process (session c))) eqn:Hs; [done|].
      specialize (Hfresh c eq_refl). rewrite Hset in Hfresh; done. }
    unfold kill in Hkill. destruct (exited _); [injection Hkill as <- _; by split|].
    destruct (delivered host); injection Hkill as <- _; try (by split).
    split; simpl; [by rewrite Hnone|done]. }
  destruct err; [by apply quiet_resolveStart|done].
Qed.

Lemma quiet_startProcess (k : nat) (command : string) (cwd : option string)
    (host : Host) (st : State) :
  quiet st -> quiet (startProcess k command cwd host st).
Proof.
  intros Hq. unfold startProcess. destruct (decide _); [done|].
  set (c := {| session := _; call := k; reply := None |}).
  assert (quiet (withHeap (fun h => h ++ [c]) st)) as Hq1.
  { intros r x Hx. simpl in Hx. apply lookup_app_Some in Hx as [Hx|[_ Hx]]; [by eapply Hq|].
    apply list_lookup_singleton_Some in Hx as [_ <-]. split; simpl; [lia|done]. }
  match goal with |- quiet (setTimeout _ _ ?s) => apply (quiet_frame s); [done|] end.
  destruct (spawned host); [done|by apply quiet_resolveStart].
Qed.

Lemma quiet_killProcess (k : nat) (id : string) (host : Host) (st : State) :
  quiet st -> quiet (killProcess k id host st).
Proof.
  intros Hq. unfold killProcess. destruct (getSession id st) as [[r c]|] eqn:Hget; [|done].
  apply getSession_Some in Hget as [_ Hc].
  match goal with
  | |- quiet (resolve _ _ (withSessions _ ?s)) => apply (quiet_frame s); [done|]
  end.
  destruct (negb (killed _)) eqn:Hk; [|done]. simpl. destruct (isNull _); [|done].
  apply (quiet_frame (sendSignal r SIGTERM host st)); [done|].
  apply quiet_sendSignal; [|done]. intros c0 Hc0. assert (c0 = c) as -> by congruence.
  by destruct (killed (process (session c))).
Qed.

Lemma quiet_writeToProcess (k : nat) (id input : string) (st : State) :
  quiet st -> quiet (writeToProcess k id input st).
Proof.
  intros Hq. unfold writeToProcess. destruct (getSession _ st) as [[r c]|]; [|done].
  destruct (isDead _); [done|].
  apply (quiet_frame (withHeap (alter (withProcess (stdinWrite input)) r) st)); [done|].
  by apply quiet_alter.
Qed.

Lemma quiet_checkOutput (k r : nat) (id : string) (mark : nat) (t0 t : Z) (st : State) :
  quiet st -> quiet (checkOutput k r id mark t0 t st).
Proof.
  intros Hq. unfold checkOutput. destruct (heap st !! r); [|done]. by destruct (_ || _).
Qed.

Lemma quiet_processInteractive (k : nat) (params : ProcessInteractiveParams)
    (host : Host) (st : State) :
  quiet st -> quiet (processInteractive k params host st).
Proof.
  intros Hq. unfold processInteractive.
  repeat match goal with
         | |- context [if ?b then _ else _] => destruct b
         | |- context [match ?o with Some _ => _ | None => _ end] => destruct o
         end;
    first [done | by apply quiet_startProcess | by apply quiet_killProcess
          | by apply quiet_writeToProcess | idtac].
  unfold readFromProcess. destruct (getSession _ st) as [[r c]|]; [|done].
  by apply quiet_checkOutput.
Qed.

Lemma quiet_runTask (t : Task) (host : Host) (st : State) :
  quiet st -> quiet (runTask t host st).
Proof.
  intros Hq. destruct t; simpl.
  - unfold startSettle. destruct (heap st !! r) as [c|]; [|done].
    destruct (isDead _); by apply quiet_resolveStart.
  - unfold writeDone. by destruct (writeError host).
  - unfold writeSettle. by destruct (heap st !! r).
  - by apply quiet_checkOutput.
  - unfold killEscalate. destruct (heap st !! r) as [c|] eqn:Hc; [|done].
    destruct (negb (killed _)) eqn:Hk; [|done].
    apply quiet_sendSignal; [|done]. intros c0 Hc0. assert (c0 = c) as -> by congruence.
    by destruct (killed (process (session c))).
  - done.
Qed.

Lemma quiet_step (e : Event) (st st' : State) :
  quiet st -> step e st = Some st' -> quiet st'.
Proof.
  intros Hq Hstep. destruct e as [params host|i host|r data|r code|r sig|dt]; simpl in Hstep.
  - injection Hstep as <-. by apply quiet_processInteractive.
  - destruct (tasks st !! i) as [[[due t]|]|]; try done.
    destruct (due <=? now st); [|done].
    destruct (crashes t host); [done|]. injection Hstep as <-. by apply quiet_runTask.
  - destruct (heap st !! r); [|done]. injection Hstep as <-. by apply quiet_alter.
  - destruct (heap st !! r) as [c|]; [|done]. destruct (exited _); [done|].
    injection Hstep as <-. by apply quiet_alter.
  - destruct (heap st !! r) as [c|]; [|done].
    destruct (exited _); [done|]. injection Hstep as <-.
    by apply quiet_alter.
  - destruct (0 <=? dt); [|done]. by injection Hstep as <-.
Qed.

Lemma quiet_run (events : list Event) (st st' : State) :
  quiet st -> run events st = Some st' -> quiet st'.
Proof.
  revert st. induction events as [|e events IH]; intros st Hq Hrun; simpl in Hrun.
  - by injection Hrun as <-.
  - destruct (step e st) as [st1|] eqn:Hstep; [|done].
    eapply IH; [|exact Hrun]. by eapply quiet_step.
Qed.

(** X18. No process is ever signalled twice. Whatever requests are made and
    whatever timers fire, the signals delivered through a handle are none,
    SIGTERM alone, or SIGKILL alone: the escalation timer sends SIGKILL only
    when the SIGTERM of the kill was not delivered, and a process that got
    the SIGTERM and ignores it is never sent SIGKILL. *)
Theorem at_most_one_signal (events : list Event) (st : State) (r : nat) (c : Child) :
  run events initial = Some st ->
  heap st !! r = Some c ->
  signals (process (session c)) = [] \/
  signals (process (session c)) = [SIGTERM] \/
  signals (process (session c)) = [SIGKILL].
Proof.
  intros Hrun Hc.
  assert (quiet initial) as Hq0 by (intros ? ? ?; done).
  destruct (quiet_run events initial st Hq0 Hrun r c Hc) as [Hlen _].
  destruct (signals (process (session c))) as [|[] [|? ?]]; simpl in Hlen; auto; lia.
Qed.

Lemma at_most_one_signal_witness :
  exists st c,
    run Demo.stubborn initial = Some st /\ heap st !! 0%nat = Some c /\
    (signals (process (session c)) = [] \/
     signals (process (session c)) = [SIGTERM] \/
     signals (process (session c)) = [SIGKILL]).
Proof.
  destruct (run Demo.stubborn initial) as [st|] eqn:Hrun; [|vm_compute in Hrun; discriminate].
  destruct (heap st !! 0%nat) as [c|] eqn:Hc;
    [|vm_compute in Hrun; injection Hrun as <-; vm_compute in Hc; discriminate].
  exists st, c. split; [reflexivity|]. split; [exact Hc|].
  exact (at_most_one_signal Demo.stubborn st 0 c Hrun Hc).
Defined.

(** ** One call on a session and its answer *)















































(** ** Killing processes by id or by name *)

Lemma killEach_partitions {Num} (sh : Processes.Shell Num) (forceFlag : string)
    (pids killed failed : list (Processes.Value Num)) (log : list string) :
  exists ks fs,
    Processes.killEach sh forceFlag pids killed failed log
    = (killed ++ ks, failed ++ fs, log ++ map (Processes.killCommand sh forceFlag) pids) /\
    ks ++ fs ≡ₚ pids /\ sublist ks pids /\ sublist fs pids.
Proof.
  revert killed failed log. induction pids as [|p pids IH]; intros killed failed log.
  - exists [], []. simpl. rewrite !app_nil_r. by repeat split.
  - cbn [Processes.killEach map].
    destruct (Processes.succeeded _).
    + destruct (IH (killed ++ [p]) failed
                  (log ++ [Processes.killCommand sh forceFlag p])) as (ks & fs & -> & Hp & Hk & Hf).
      exists (p :: ks), fs. rewrite <- !(assoc_L (++)). simpl. split; [done|].
      split; [by rewrite Hp|]. split; [by apply sublist_skip|by apply sublist_cons].
    + destruct (IH killed (failed ++ [p])
                  (log ++ [Processes.killCommand sh forceFlag p])) as (ks & fs & -> & Hp & Hk & Hf).
      exists ks, (p :: fs). rewrite <- !(assoc_L (++)). simpl. split; [done|].
      split; [by rewrite <- Permutation_middle, Hp|].
      split; [by apply sublist_cons|by apply sublist_skip].
Qed.

(** X19. Which processes a kill request aims at. A process id that is falsy
    (zero) counts as no id: the request is then handled as if only the name
    had been given, and is refused when there is no name. A truthy id wins
    over the name: the name is not looked at, exactly one [Stop-Process]
    command is run, and the id ends up alone in [killed] or alone in
    [failed], with [count] the length of [killed]. *)
Theorem processKill_target {Num} (sh : Processes.Shell Num) (x : Num)
    (name : option string) (force : option bool) (log : list string) :
  let params pid name := {| Processes.pid := pid; Processes.name := name;
                            Processes.force := force |} in
  Processes.processKill sh (params (Some x) name) log
  = (if Processes.isZero sh x
     then Processes.processKill sh (params None name) log
     else Processes.processKill sh (params (Some x) None) log) /\
  (Processes.isZero sh x = true -> Js.truthy name = false ->
   Processes.processKill sh (params (Some x) name) log
   = (inl (createError "INVALID_ARGUMENT" "Must specify either pid or name" None), log)) /\
  (Processes.isZero sh x = false ->
   exists killed failed,
     Processes.processKill sh (params (Some x) name) log
     = (inr (Processes.report killed failed),
        log ++ [Processes.stopCommand sh (Processes.Number x) (Processes.forceFlagOf force)]) /\
     killed ++ failed = [Processes.Number x]).
Proof.
  intros params. unfold Processes.processKill. cbn [params Processes.pid Processes.name
    Processes.force Processes.truthyNumber Js.truthy negb andb].
  destruct (Processes.isZero sh x) eqn:Hzero; cbn [negb andb].
  - split; [done|]. split; [|done]. intros _ ->. done.
  - split; [done|]. split; [done|]. intros _.
    unfold Processes.killByPid. destruct (Processes.execute sh log _) as [|? ? code].
    + by exists [], [Processes.Number x].
    + destruct (code =? 0); [by exists [Processes.Number x], []|by exists [], [Processes.Number x]].
Qed.

Lemma processKill_target_witness :
  exists killed failed,
    Processes.processKill Processes.twoFound
      {| Processes.pid := Some 7; Processes.name := Some "node";
         Processes.force := Some true |} []
    = (inr (Processes.report killed failed),
       [] ++ [Processes.stopCommand Processes.twoFound (Processes.Number 7)
                (Processes.forceFlagOf (Some true))]) /\
    killed ++ failed = [Processes.Number 7].
Proof.
  destruct (processKill_target Processes.twoFound 7 (Some "node") (Some true) [])
    as (_ & _ & H).
  apply H. reflexivity.
Defined.

(** X20. A kill by name, once PowerShell has listed the matching processes
    (whatever the exit code of the listing) and the list could be read: every
    listed id is tried exactly once, in the order of the list, also after a
    failure; each entry of the list ends up in [killed] or in [failed],
    in exactly one of them and once, in the order of the list; [count] is the length of
    [killed]; and the answer is a report, not an error, even when nothing
    could be stopped. *)
Theorem processKill_by_name {Num} (sh : Processes.Shell Num)
    (params : Processes.ProcessKillParams Num) (log : list string)
    (name stdout stderr : string) (exitCode : Z)
    (parsed : Processes.Value Num) (pids : list (Processes.Value Num)) :
  Processes.truthyNumber sh (Processes.pid params) = false ->
  Processes.name params = Some name ->
  Js.truthy (Some name) = true ->
  Processes.execute sh log (Processes.listCommand name)
  = Processes.ExecDone stdout stderr exitCode ->
  Js.truthy (Some (Processes.trim sh stdout)) = true ->
  Processes.parse sh stdout = Some parsed ->
  mapM Processes.getId (Processes.itemsOf parsed) = Some pids ->
  exists killed failed,
    Processes.processKill sh params log
    = (inr {| Processes.killed := killed; Processes.failed := failed;
              Processes.count := length killed |},
       log ++ Processes.listCommand name
           :: map (Processes.killCommand sh (Processes.forceFlagOf (Processes.force params)))
                  pids) /\
    killed ++ failed ≡ₚ pids /\ sublist killed pids /\ sublist failed pids.
Proof.
  intros Hpid Hname Htruthy Hlist Hout Hparse Hids.
  unfold Processes.processKill. rewrite Hpid, Hname, Htruthy. cbn [negb andb].
  assert (Processes.killByName sh name (Processes.force params) log
          = Processes.processKill sh params log) as Hroute.
  { unfold Processes.processKill. rewrite Hpid, Hname, Htruthy. cbn [negb andb].
    unfold Processes.truthyNumber in Hpid.
    destruct (Processes.pid params) as [x|]; [|done].
    by destruct (Processes.isZero sh x). }
  unfold Processes.processKill in Hroute. rewrite Hpid, Hname, Htruthy in Hroute.
  cbn [negb andb] in Hroute. rewrite <- Hroute. clear Hroute.
  unfold Processes.killByName. rewrite Hlist, Hout, Hparse. cbn [negb mbind option_bind].
  rewrite Hids.
  destruct (killEach_partitions sh (Processes.forceFlagOf (Processes.force params)) pids
              [] [] (log ++ [Processes.listCommand name])) as (ks & fs & -> & Hp & Hk & Hf).
  exists ks, fs. rewrite <- (assoc_L (++)). by repeat split.
Qed.

Lemma processKill_by_name_witness :
  exists killed failed,
    Processes.processKill Processes.twoFound
      {| Processes.pid := Some 0; Processes.name := Some "node"; Processes.force := None |} []
    = (inr {| Processes.killed := killed; Processes.failed := failed;
              Processes.count := length killed |},
       [] ++ Processes.listCommand "node"
          :: map (Processes.killCommand Processes.twoFound (Processes.forceFlagOf None))
                 [Processes.Number 4; Processes.Number 8]) /\
    killed ++ failed ≡ₚ [Processes.Number 4; Processes.Number 8].
Proof.
  edestruct (processKill_by_name Processes.twoFound
               {| Processes.pid := Some 0; Processes.name := Some "node";
                  Processes.force := None |} [] "node")
    as (killed & failed & Hrun & Hperm & _);
    [reflexivity | reflexivity | reflexivity | reflexivity | reflexivity | reflexivity
    | reflexivity |].
  exists killed, failed. split; [exact Hrun | exact Hperm].
Defined.
